(** * AIRacing: track boundaries, membership test, sensors and steering

    A shallow embedding of [src/AIRacing.py].  The file holds two programs:
    the racing simulation (lines 1-280) and the boundary test (lines
    283-411), each with its own [Track] class.  The boundary geometry is
    written once over an abstract scalar type and used at two instances:
    the real numbers (exact arithmetic, where the general theorems are
    proved) and IEEE binary64 (where the code can be evaluated as it runs). *)

From Stdlib Require Import Reals Lra Lia ZArith List Bool.
From Stdlib Require Floats.PrimFloat.
Import ListNotations.

Set Implicit Arguments.

(** ** Outcomes of fallible code *)

(** What can go wrong in the modelled code: [inner[0]] on an empty list,
    a failure inside scipy's spline fit, and a division by zero, which numpy
    does not raise but answers with [inf] or [nan]. *)
Inductive error : Type :=
  | IndexError
  | SmoothingError
  | NonFinite.

Inductive res (A : Type) : Type :=
  | Ok (a : A)
  | Err (e : error).

Arguments Ok {A} a.
Arguments Err {A} e.

Definition bind {A B : Type} (m : res A) (k : A -> res B) : res B :=
  match m with
  | Ok a => k a
  | Err e => Err e
  end.

Notation "x <- m ;; k" := (bind m (fun x => k))
  (at level 61, m at next level, right associativity).
Notation "' pat <- m ;; k" := (bind m (fun x => match x with pat => k end))
  (at level 61, pat pattern, m at next level, right associativity).

(** ** Scalars *)

(** The arithmetic the boundary code uses on coordinates. *)
Class Scalar (F : Type) : Type := {
  zero : F;
  two : F;
  half : F;
  add : F -> F -> F;
  sub : F -> F -> F;
  mul : F -> F -> F;
  div : F -> F -> F;
  neg : F -> F;
  root : F -> F;
  ltb : F -> F -> bool;
  eqb : F -> F -> bool
}.

Definition Rltb (a b : R) : bool := if Rlt_dec a b then true else false.
Definition Rleb (a b : R) : bool := if Rle_dec a b then true else false.
Definition Reqb (a b : R) : bool := if Req_dec_T a b then true else false.

#[export] Instance R_scalar : Scalar R := {
  zero := 0%R;
  two := 2%R;
  half := (1 / 2)%R;
  add := Rplus;
  sub := Rminus;
  mul := Rmult;
  div := Rdiv;
  neg := Ropp;
  root := sqrt;
  ltb := Rltb;
  eqb := Reqb
}.

(** ** Plane geometry (the numpy expressions of [calculate_boundaries]) *)

Section Geometry.
Context {F : Type} `{Scalar F}.

Definition point : Type := (F * F)%type.

Definition origin : point := (zero, zero).

Definition vadd (p q : point) : point := (add (fst p) (fst q), add (snd p) (snd q)).
Definition vsub (p q : point) : point := (sub (fst p) (fst q), sub (snd p) (snd q)).
Definition vscale (p : point) (k : F) : point := (mul (fst p) k, mul (snd p) k).

(** Division by a literal: [(p_inner + p_outer) / 2]. *)
Definition vhalve (p : point) : point := (div (fst p) two, div (snd p) two).

(** Division by a computed scalar: a zero divisor yields [inf] or [nan]. *)
Definition np_div (a b : F) : res F :=
  if eqb b zero then Err NonFinite else Ok (div a b).

Definition vdiv (p : point) (k : F) : res point :=
  a <- np_div (fst p) k ;;
  b <- np_div (snd p) k ;;
  Ok (a, b).

(** [np.linalg.norm] of a vector of two components. *)
Definition norm (v : point) : F :=
  root (add (mul (fst v) (fst v)) (mul (snd v) (snd v))).

Definition distance (p q : point) : F := norm (vsub p q).

(** One iteration of the offset loop (lines 83-98 and 338-348): [inner]
    and [outer] are the two lists built so far. *)
Definition offset_step (width : F) (centerline : list point)
    (acc : list point * list point) (i : nat) : res (list point * list point) :=
  let p1 := nth i centerline origin in
  let p2 := nth ((i + 1) mod length centerline) centerline origin in
  let direction := vsub p2 p1 in
  let len := norm direction in
  if eqb len zero then Ok acc
  else
    unit_direction <- vdiv direction len ;;
    let offset := vscale (neg (snd unit_direction), fst unit_direction) (div width two) in
    Ok (fst acc ++ [vadd p1 offset], snd acc ++ [vsub p1 offset]).

Fixpoint run_loop {A : Type} (body : A -> nat -> res A) (acc : A) (idxs : list nat) : res A :=
  match idxs with
  | [] => Ok acc
  | i :: rest => acc' <- body acc i ;; run_loop body acc' rest
  end.

Definition offset_loop (width : F) (centerline : list point) : res (list point * list point) :=
  run_loop (offset_step width centerline) ([], []) (seq 0 (length centerline)).

(** [l.append(l[0])], which raises on an empty list. *)
Definition close_curve (l : list point) : res (list point) :=
  match l with
  | [] => Err IndexError
  | p :: _ => Ok (l ++ [p])
  end.

(** One iteration of the repair loop of the boundary test (lines 354-366). *)
Definition repair_step (width : F) (inner outer : list point)
    (acc : list point * list point) (i : nat) : res (list point * list point) :=
  let p_inner := nth i inner origin in
  let p_outer := nth i outer origin in
  let midpoint := vhalve (vadd p_inner p_outer) in
  let dist := norm (vsub p_inner p_outer) in
  if ltb dist width then
    scale <- (if negb (eqb dist zero) then np_div (div width two) dist else Ok half) ;;
    Ok (fst acc ++ [vadd midpoint (vscale (vsub p_inner midpoint) scale)],
        snd acc ++ [vadd midpoint (vscale (vsub p_outer midpoint) scale)])
  else
    Ok (fst acc ++ [p_inner], snd acc ++ [p_outer]).

Definition repair_loop (width : F) (inner outer : list point) : res (list point * list point) :=
  run_loop (repair_step width inner outer) ([], []) (seq 0 (length inner)).

End Geometry.

Arguments point F : clear implicits.

(** ** Screen constants (lines 10 and 24) *)

Definition WIDTH : Z := 1080.
Definition HEIGHT : Z := 1080.

(** A collision mask: [get_at((x, y)) != 0] for a pixel of the canvas. *)
Definition Mask : Type := Z -> Z -> bool.

(** Events as [handle_events] reads them; mouse events carry the position
    [pygame.mouse.get_pos()] answers while they are handled. *)
Inductive event (F : Type) : Type :=
  | Quit
  | MouseButtonDown (pos : point F)
  | MouseMotion (left_pressed : bool) (pos : point F)
  | KeyDown (is_space : bool)
  | OtherEvent.

Arguments Quit {F}.
Arguments MouseButtonDown {F} pos.
Arguments MouseMotion {F} left_pressed pos.
Arguments KeyDown {F} is_space.
Arguments OtherEvent {F}.

Definition point_eqb {F : Type} `{Scalar F} (p q : point F) : bool :=
  eqb (fst p) (fst q) && eqb (snd p) (snd q).

(** ** The racing simulation's track (lines 30-103 and 209-228) *)

Module Racing.

Record Track (F : Type) : Type := mkTrack {
  centerline : list (point F);
  inner_boundary : list (point F);
  outer_boundary : list (point F);
  width : F;
  finalized : bool;
  track_polygon : option (list (point F));
  track_mask : option Mask
}.

Section Track.
Context {F : Type} `{Scalar F}.

(** [_spline_smooth(points, smooth_factor, num_points)]: scipy's
    [splprep] and [splev], external to the repository. *)
Variable spline_smooth : list (point F) -> F -> nat -> res (list (point F)).

(** [pygame.draw.polygon] on a blank surface followed by
    [pygame.mask.from_surface]. *)
Variable draw_polygon : list (point F) -> Mask.

Definition init (w : F) : Track F :=
  mkTrack [] [] [] w false None None.

Definition add_point (t : Track F) (p : point F) : Track F :=
  match rev (centerline t) with
  | [] =>
      mkTrack (centerline t ++ [p]) (inner_boundary t) (outer_boundary t)
        (width t) (finalized t) (track_polygon t) (track_mask t)
  | last :: _ =>
      if negb (point_eqb p last) then
        mkTrack (centerline t ++ [p]) (inner_boundary t) (outer_boundary t)
          (width t) (finalized t) (track_polygon t) (track_mask t)
      else t
  end.

Definition calculate_boundaries (w : F) (cl : list (point F))
    : res (list (point F) * list (point F)) :=
  io <- offset_loop w cl ;;
  inner <- close_curve (fst io) ;;
  outer <- close_curve (snd io) ;;
  Ok (inner, outer).

Definition smooth_centerline (cl : list (point F)) : res (list (point F)) :=
  if (2 <? length cl)%nat then spline_smooth cl two 200 else Ok cl.

Definition finalize (t : Track F) : res (Track F) :=
  if (2 <? length (centerline t))%nat then
    smoothed <- smooth_centerline (centerline t) ;;
    cl <- close_curve smoothed ;;
    _ <- calculate_boundaries (width t) cl ;;
    io <- calculate_boundaries (width t) cl ;;
    let polygon := snd io ++ rev (fst io) in
    Ok (mkTrack cl (fst io) (snd io) (width t) true
          (Some polygon) (Some (draw_polygon polygon)))
  else Ok t.

Definition handle_event (t : Track F) (e : event F) : res (Track F) :=
  if negb (finalized t) then
    match e with
    | MouseButtonDown pos => Ok (add_point t pos)
    | MouseMotion true pos => Ok (add_point t pos)
    | KeyDown true => finalize t
    | _ => Ok t
    end
  else Ok t.

(** The loop over [pygame.event.get()]: the answer is [running] and the
    track as the events left it. *)
Fixpoint handle_events (t : Track F) (events : list (event F)) : res (bool * Track F) :=
  match events with
  | [] => Ok (true, t)
  | Quit :: _ => Ok (false, t)
  | e :: rest => t' <- handle_event t e ;; handle_events t' rest
  end.

End Track.

End Racing.

(** ** The boundary test's track (lines 304-371 and 382-393) *)

Module BoundaryTest.

Record Track (F : Type) : Type := mkTrack {
  centerline : list (point F);
  inner_boundary : list (point F);
  outer_boundary : list (point F);
  width : F;
  finalized : bool
}.

Section Track.
Context {F : Type} `{Scalar F}.

Variable spline_smooth : list (point F) -> F -> nat -> res (list (point F)).

Definition init (w : F) : Track F := mkTrack [] [] [] w false.

Definition add_point (t : Track F) (p : point F) : Track F :=
  match rev (centerline t) with
  | [] =>
      mkTrack (centerline t ++ [p]) (inner_boundary t) (outer_boundary t)
        (width t) (finalized t)
  | last :: _ =>
      if negb (point_eqb p last) then
        mkTrack (centerline t ++ [p]) (inner_boundary t) (outer_boundary t)
          (width t) (finalized t)
      else t
  end.

(** Lines 336-366: the offsets, closed, then the repair loop. *)
Definition repaired_boundaries (w : F) (cl : list (point F))
    : res (list (point F) * list (point F)) :=
  io <- offset_loop w cl ;;
  inner <- close_curve (fst io) ;;
  outer <- close_curve (snd io) ;;
  repair_loop w inner outer.

Definition calculate_boundaries (w : F) (cl : list (point F))
    : res (list (point F) * list (point F)) :=
  adjusted <- repaired_boundaries w cl ;;
  adjusted_inner <- spline_smooth (fst adjusted) two 200 ;;
  adjusted_outer <- spline_smooth (snd adjusted) two 200 ;;
  Ok (adjusted_inner, adjusted_outer).

Definition smooth_centerline (cl : list (point F)) : res (list (point F)) :=
  if (2 <? length cl)%nat then spline_smooth cl two 200 else Ok cl.

Definition finalize (t : Track F) : res (Track F) :=
  if (2 <? length (centerline t))%nat then
    smoothed <- smooth_centerline (centerline t) ;;
    cl <- close_curve smoothed ;;
    io <- calculate_boundaries (width t) cl ;;
    Ok (mkTrack cl (fst io) (snd io) (width t) true)
  else Ok t.

Definition handle_event (t : Track F) (e : event F) : res (Track F) :=
  if negb (finalized t) then
    match e with
    | MouseButtonDown pos => Ok (add_point t pos)
    | MouseMotion true pos => Ok (add_point t pos)
    | KeyDown true => finalize t
    | _ => Ok t
    end
  else Ok t.

Fixpoint handle_events (t : Track F) (events : list (event F)) : res (bool * Track F) :=
  match events with
  | [] => Ok (true, t)
  | Quit :: _ => Ok (false, t)
  | e :: rest => t' <- handle_event t e ;; handle_events t' rest
  end.

End Track.

End BoundaryTest.

(** ** Python values and list access *)

(** What [is_inside_track] can answer: a boolean, or [None] when control
    falls off the end of the function. *)
Inductive pyval : Type :=
  | PyNone
  | PyBool (b : bool).

(** Python's truth value, as [not v] and [if v] read it. *)
Definition truthy (v : pyval) : bool :=
  match v with
  | PyNone => false
  | PyBool b => b
  end.

(** [l[i]] for a non-negative index. *)
Definition get_item {A : Type} (l : list A) (i : nat) : res A :=
  match nth_error l i with
  | Some v => Ok v
  | None => Err IndexError
  end.

(** [l[i] = v] for a non-negative index. *)
Fixpoint set_item {A : Type} (l : list A) (i : nat) (v : A) : res (list A) :=
  match l, i with
  | [], _ => Err IndexError
  | _ :: rest, O => Ok (v :: rest)
  | a :: rest, S j => rest' <- set_item rest j v ;; Ok (a :: rest')
  end.

(** [range(lo, hi)]. *)
Definition range (lo hi : Z) : list Z :=
  map (fun k => (lo + Z.of_nat k)%Z) (seq 0 (Z.to_nat (hi - lo))).

(** [int(x)] on a float: truncation toward zero. *)
Definition py_int (x : R) : Z :=
  if Rle_dec 0 x then Int_part x else (- Int_part (- x))%Z.

(** [np.radians]. *)
Definition radians (deg : R) : R := (deg * PI / 180)%R.

(** ** Steering policies (lines 185-207) *)

(** [random.choice(l)] for a non-empty [l]: [draw] is what the random
    source yields, reduced to an index below [len(l)]. *)
Definition random_choice (draw : nat) (l : list Z) : Z :=
  nth (draw mod length l) l 0%Z.

Definition simple_logic (draw : nat) (sensors : list Z) : res Z :=
  s2 <- get_item sensors 2 ;;
  if (s2 <? 50)%Z then Ok (random_choice draw [-10; 10]%Z)
  else
    s0 <- get_item sensors 0 ;;
    if (s0 <? 50)%Z then Ok 5%Z
    else
      s4 <- get_item sensors 4 ;;
      if (s4 <? 50)%Z then Ok (-5)%Z
      else Ok 0%Z.

Definition advanced_logic (sensors : list Z) : res R :=
  s0 <- get_item sensors 0 ;;
  s1 <- get_item sensors 1 ;;
  let left_score := (s0 + s1)%Z in
  s3 <- get_item sensors 3 ;;
  s4 <- get_item sensors 4 ;;
  let right_score := (s3 + s4)%Z in
  let center_steering := (IZR (right_score - left_score) * (2 / 100))%R in
  s2 <- get_item sensors 2 ;;
  if (s2 <? 30)%Z then
    Ok (if (right_score <? left_score)%Z then (-20)%R else 20%R)
  else if ((s0 <? 20) || (s4 <? 20))%Z then
    Ok (if (s0 <? s4)%Z then (-15)%R else 15%R)
  else Ok center_steering.

(** ** The car (lines 118-183) *)

Module Car.

Local Open Scope R_scope.

(** The fields of [Car] but [color], which only [draw] reads.  The
    steering policy takes the draw of the random source for this tick. *)
Record Car : Type := mkCar {
  start_x : R;
  start_y : R;
  x : R;
  y : R;
  angle : R;
  speed : R;
  ai_model : nat -> list Z -> res R;
  track : Racing.Track R;
  sensors : list Z;
  collided : bool
}.

Definition init (x0 y0 : R) (model : nat -> list Z -> res R) (t : Racing.Track R) : Car :=
  mkCar x0 y0 x0 y0 0 2 model t (repeat 200%Z 5) false.

Definition simple_model (draw : nat) (s : list Z) : res R :=
  turn <- simple_logic draw s ;; Ok (IZR turn).

Definition advanced_model (_ : nat) (s : list Z) : res R := advanced_logic s.

Definition set_pose (c : Car) (x' y' angle' speed' : R) (collided' : bool) : Car :=
  mkCar (start_x c) (start_y c) x' y' angle' speed' (ai_model c) (track c)
    (sensors c) collided'.

Definition set_sensors (c : Car) (s : list Z) : Car :=
  mkCar (start_x c) (start_y c) (x c) (y c) (angle c) (speed c) (ai_model c)
    (track c) s (collided c).

Definition move (c : Car) : Car :=
  set_pose c
    (x c + cos (radians (angle c)) * speed c)
    (y c - sin (radians (angle c)) * speed c)
    (angle c) (speed c) (collided c).

Definition in_range (lo v hi : Z) : bool := ((lo <=? v) && (v <? hi))%Z.

Definition is_inside_track (c : Car) (px py : R) : pyval :=
  match Racing.finalized (track c), Racing.track_mask (track c) with
  | true, Some mask =>
      if in_range 0 (py_int px) WIDTH && in_range 0 (py_int py) HEIGHT
      then PyBool (mask (py_int px) (py_int py))
      else PyBool false
  | _, _ => PyNone
  end.

Definition ray_point (c : Car) (ray_angle : R) (dist : Z) : R * R :=
  (x c + cos (radians ray_angle) * IZR dist,
   y c - sin (radians ray_angle) * IZR dist).

(** The inner loop of [sense] with its [break]: the first distance whose
    point is not inside the track, if the loop meets one. *)
(** [self.is_inside_track(ray_x, ray_y)], as the [if] reads it. *)
Definition inside_at (c : Car) (ray_angle : R) (dist : Z) : bool :=
  let p := ray_point c ray_angle dist in
  truthy (is_inside_track c (fst p) (snd p)).

Fixpoint first_outside (c : Car) (ray_angle : R) (dists : list Z) : option Z :=
  match dists with
  | [] => None
  | dist :: rest =>
      if negb (inside_at c ray_angle dist) then Some dist
      else first_outside c ray_angle rest
  end.

Definition sensor_angles : list Z := [-45; -20; 0; 20; 45]%Z.

(** One iteration of the outer loop of [sense]. *)
Definition sense_ray (c : Car) (readings : list Z) (entry : nat * Z) : res (list Z) :=
  let ray_angle := angle c + IZR (snd entry) in
  match first_outside c ray_angle (range 1 200) with
  | Some dist => set_item readings (fst entry) dist
  | None => Ok readings
  end.

Fixpoint sense_loop (c : Car) (readings : list Z) (entries : list (nat * Z)) : res (list Z) :=
  match entries with
  | [] => Ok readings
  | entry :: rest => readings' <- sense_ray c readings entry ;; sense_loop c readings' rest
  end.

Definition enumerate {A : Type} (l : list A) : list (nat * A) :=
  combine (seq 0 (length l)) l.

Definition sense (c : Car) : res Car :=
  readings <- sense_loop c (sensors c) (enumerate sensor_angles) ;;
  Ok (set_sensors c readings).

Definition reset (c : Car) : Car :=
  set_pose c (start_x c) (start_y c) 0 2 false.

Definition on_canvas (px py : R) : bool :=
  (Rleb 0 px && Rltb px (IZR WIDTH)) && (Rleb 0 py && Rltb py (IZR HEIGHT)).

(** [self.angle += turn_angle]. *)
Definition steer (c : Car) (turn_angle : R) : Car :=
  set_pose c (x c) (y c) (angle c + turn_angle) (speed c) (collided c).

(** The test of line 181. *)
Definition off_track (c : Car) : bool :=
  negb (truthy (is_inside_track c (x c) (y c))) || negb (on_canvas (x c) (y c)).

Definition update (draw : nat) (c : Car) : res Car :=
  if negb (collided c) then
    c1 <- sense c ;;
    turn_angle <- ai_model c1 draw (sensors c1) ;;
    let c3 := move (steer c1 turn_angle) in
    if off_track c3 then
      let c4 := set_pose c3 (x c3) (y c3) (angle c3) (speed c3) true in
      Ok (reset c4)
    else Ok c3
  else Ok c.

End Car.

(** ** The main loop of the racing simulation (lines 244-276) *)

Module Main.

Local Open Scope R_scope.

(** The two variables of [main]: the track and the list of cars.  Every
    car holds a reference to the one track object. *)
Record State : Type := mkState {
  track : Racing.Track R;
  cars : list Car.Car
}.

Definition initial : State := mkState (Racing.init 80) [].

(** The car as it sees the track object at this moment. *)
Definition with_track (c : Car.Car) (t : Racing.Track R) : Car.Car :=
  Car.mkCar (Car.start_x c) (Car.start_y c) (Car.x c) (Car.y c) (Car.angle c)
    (Car.speed c) (Car.ai_model c) t (Car.sensors c) (Car.collided c).

(** Lines 260-263: the three cars, from [track.centerline[0]]. *)
Definition spawn (t : Racing.Track R) : res (list Car.Car) :=
  start_pos <- get_item (Racing.centerline t) 0 ;;
  Ok [Car.init (fst start_pos) (snd start_pos) Car.simple_model t;
      Car.init (fst start_pos + 10) (snd start_pos + 10) Car.advanced_model t;
      Car.init (fst start_pos - 10) (snd start_pos - 10) Car.advanced_model t].

(** Lines 266-268: [draws k] is what the random source yields to the
    [k]-th car of the list, should its policy draw. *)
Fixpoint update_cars (draws : nat -> nat) (t : Racing.Track R) (k : nat)
    (l : list Car.Car) : res (list Car.Car) :=
  match l with
  | [] => Ok []
  | c :: rest =>
      c' <- Car.update (draws k) (with_track c t) ;;
      rest' <- update_cars draws t (S k) rest ;;
      Ok (c' :: rest')
  end.

Section Loop.
Variable spline_smooth : list (point R) -> R -> nat -> res (list (point R)).
Variable draw_polygon : list (point R) -> Mask.

(** One pass of the body of [while running]. *)
Definition frame (events : list (event R)) (draws : nat -> nat) (s : State)
    : res (bool * State) :=
  handled <- Racing.handle_events spline_smooth draw_polygon (track s) events ;;
  let t := snd handled in
  spawned <- (if Racing.finalized t && (match cars s with [] => true | _ => false end)
              then spawn t else Ok (cars s)) ;;
  updated <- update_cars draws t 0 spawned ;;
  Ok (fst handled, mkState t updated).

(** The loop, over the events and draws of each pass; it ends after the
    pass in which [handle_events] answers [False]. *)
Fixpoint run (frames : list (list (event R) * (nat -> nat))) (s : State) : res State :=
  match frames with
  | [] => Ok s
  | f :: rest =>
      r <- frame (fst f) (snd f) s ;;
      if fst r then run rest (snd r) else Ok (snd r)
  end.

End Loop.

End Main.

(** ** IEEE binary64 scalars *)

Module Binary64.
Import PrimFloat.

#[global] Instance float_scalar : Scalar float := {
  zero := 0%float;
  two := 2%float;
  half := 0.5%float;
  add := PrimFloat.add;
  sub := PrimFloat.sub;
  mul := PrimFloat.mul;
  div := PrimFloat.div;
  neg := PrimFloat.opp;
  root := PrimFloat.sqrt;
  ltb := PrimFloat.ltb;
  eqb := PrimFloat.eqb
}.

(** A closed centerline of binary64 points; its first segment runs along
    the row y = 88.2 (the double nearest to it). *)
Definition centerline : list (point float) :=
  [(0, 0x1.60ccccccccccdp+6); (1, 0x1.60ccccccccccdp+6); (1, 200); (0, 200);
   (0, 0x1.60ccccccccccdp+6)]%float.

(** [distance(inner[i], outer[i])] at every index of two boundaries. *)
Definition separations (io : list (point float) * list (point float)) : list float :=
  map (fun i => distance (nth i (fst io) origin) (nth i (snd io) origin))
    (seq 0 (length (fst io))).

End Binary64.

(** ** What the offset loop is expected to build *)

Section OffsetPoints.
Context {F : Type} `{Scalar F}.

Definition segment_start (cl : list (point F)) (i : nat) : point F :=
  nth i cl origin.

Definition segment_direction (cl : list (point F)) (i : nat) : point F :=
  vsub (nth ((i + 1) mod length cl) cl origin) (nth i cl origin).

(** A segment of the centerline that has a length. *)
Definition nondegenerate (cl : list (point F)) (i : nat) : bool :=
  negb (eqb (norm (segment_direction cl i)) zero).

Definition segment_offset (w : F) (cl : list (point F)) (i : nat) : point F :=
  let d := segment_direction cl i in
  let len := norm d in
  vscale (neg (div (snd d) len), div (fst d) len) (div w two).

Definition inner_point (w : F) (cl : list (point F)) (i : nat) : point F :=
  vadd (segment_start cl i) (segment_offset w cl i).

Definition outer_point (w : F) (cl : list (point F)) (i : nat) : point F :=
  vsub (segment_start cl i) (segment_offset w cl i).

Definition live_segments (cl : list (point F)) : list nat :=
  filter (nondegenerate cl) (seq 0 (length cl)).


End OffsetPoints.

(** ** Measures the statements use *)

(** No two neighbours of the list are the same point. *)
Fixpoint adjacent_distinct (l : list (point R)) : Prop :=
  match l with
  | [] => True
  | a :: rest =>
      match rest with
      | [] => True
      | b :: _ => a <> b /\ adjacent_distinct rest
      end
  end.

(** The track with points added to its centerline and nothing else
    changed. *)
Definition extended (t : Racing.Track R) (added : list (point R)) : Racing.Track R :=
  Racing.mkTrack (Racing.centerline t ++ added) (Racing.inner_boundary t)
    (Racing.outer_boundary t) (Racing.width t) (Racing.finalized t)
    (Racing.track_polygon t) (Racing.track_mask t).

(** Every reading is a distance of the sensor range. *)
Definition readings_in_range (l : list Z) : Prop :=
  forall r, In r l -> (1 <= r <= 200)%Z.

(** What holds of a car between two passes of the main loop: it refers to
    the track [t], is not marked collided and has five readings of the
    sensor range. *)
Definition car_ready (t : Racing.Track R) (c : Car.Car) : Prop :=
  Car.track c = t /\
  Car.collided c = false /\
  length (Car.sensors c) = 5%nat /\
  readings_in_range (Car.sensors c).

(** What holds of the two variables of [main] between two passes: no car
    while the track is being drawn, three once it is finalized. *)
Definition main_invariant (s : Main.State) : Prop :=
  ((Racing.finalized (Main.track s) = false /\ Main.cars s = []) \/
   (Racing.finalized (Main.track s) = true /\ length (Main.cars s) = 3%nat)) /\
  forall c, In c (Main.cars s) -> car_ready (Main.track s) c.

(** ** A worked track *)

Module Sample.

Local Open Scope R_scope.

(** [n] points one pixel apart on the horizontal line one pixel below
    [p0]. *)
Definition line (p0 : point R) (n : nat) : list (point R) :=
  map (fun k => (fst p0 + INR k, snd p0 + 1)) (seq 0 n).

(** The closed centerline [finalize] makes of the points drawn below. *)
Definition closed_line : list (point R) :=
  line (0, 499) 200 ++ [(0 + INR 0, 499 + 1)].

(** A stand-in for the spline fit, with the two properties of [splprep]
    the code meets: a cubic fit needs more points than its degree, so
    fewer than four points are refused, and a fit that succeeds answers
    [num_points] points.  It lays them on [line], from the first input
    point. *)
Definition resample_line (pts : list (point R)) (smooth_factor : R) (num_points : nat)
    : res (list (point R)) :=
  if (length pts <? 4)%nat then Err SmoothingError
  else Ok (line (hd origin pts) num_points).

(** A stand-in for the rasterised polygon: the band of 80 rows around row
    500, over the first 200 columns. *)
Definition band_mask : Mask :=
  fun px py => ((0 <=? px) && (px <? 200) && (460 <=? py) && (py <? 541))%Z.

Definition draw_band (_ : list (point R)) : Mask := band_mask.

Definition unwrap {A : Type} (default : A) (r : res A) : A :=
  match r with
  | Ok a => a
  | Err _ => default
  end.

(** Four points drawn by the user. *)
Definition drawing : Racing.Track R :=
  Racing.mkTrack [(0, 499); (1, 499); (1, 500); (0, 500)] [] [] 80 false None None.

(** The track [finalize] makes of them. *)
Definition finalized_track : Racing.Track R :=
  unwrap drawing (Racing.finalize resample_line draw_band drawing).


(** A car at the start of the finalized track, heading along it, whose
    readings are those an earlier tick left. *)
Definition stale_car : Car.Car :=
  Car.mkCar 0 500 0 500 0 2 Car.simple_model finalized_track
    [30; 30; 30; 30; 30]%Z false.

(** A car created on a track that is still being drawn. *)
Definition early_car : Car.Car :=
  Car.init 0 499 Car.simple_model drawing.

(** That car after one tick in which the random source draws 0. *)
Definition early_car_ticked : Car.Car :=
  unwrap early_car (Car.update 0 early_car).

(** A stand-in for a rasterised polygon that covers no pixel. *)
Definition draw_blank (_ : list (point R)) : Mask := fun _ _ => false.

(** The variables of [main] once the four points are drawn, and after the
    pass in which SPACE is then pressed (every draw of that pass is 0). *)
Definition drawn : Main.State := Main.mkState drawing [].

Definition space_pass : bool * Main.State :=
  unwrap (true, drawn)
    (Main.frame resample_line draw_blank [KeyDown true] (fun _ => O) drawn).

(** The variables of [main] after a pass with one click and a pass with a
    QUIT event. *)
Definition click_and_quit : Main.State :=
  unwrap Main.initial
    (Main.run resample_line draw_blank
       [([MouseButtonDown (5, 5)], fun _ => O); ([Quit], fun _ => O)] Main.initial).

End Sample.

(** ** Degenerate segments (C8) *)

Section OffsetLoop.
Context {F : Type} `{Scalar F}.

Lemma offset_step_live (w : F) (cl : list (point F)) acc i :
  nondegenerate cl i = true ->
  offset_step w cl acc i =
    Ok (fst acc ++ [inner_point w cl i], snd acc ++ [outer_point w cl i]).
Proof.
  unfold nondegenerate, offset_step, segment_direction, inner_point, outer_point,
    segment_offset, segment_start, segment_direction, vdiv, np_div.
  intros Hlive. apply negb_true_iff in Hlive. rewrite Hlive. reflexivity.
Qed.

Lemma offset_step_skip (w : F) (cl : list (point F)) acc i :
  nondegenerate cl i = false ->
  offset_step w cl acc i = Ok acc.
Proof.
  unfold nondegenerate, offset_step, segment_direction.
  intros Hdead. apply negb_false_iff in Hdead. rewrite Hdead. reflexivity.
Qed.

Lemma offset_run (w : F) (cl : list (point F)) (idxs : list nat) :
  forall inner outer,
    run_loop (offset_step w cl) (inner, outer) idxs =
      Ok (inner ++ map (inner_point w cl) (filter (nondegenerate cl) idxs),
          outer ++ map (outer_point w cl) (filter (nondegenerate cl) idxs)).
Proof.
  induction idxs as [|i rest IH]; intros inner outer; simpl.
  - now rewrite !app_nil_r.
  - destruct (nondegenerate cl i) eqn:Hi.
    + rewrite offset_step_live by exact Hi. simpl.
      rewrite IH. now rewrite <- !app_assoc.
    + rewrite offset_step_skip by exact Hi. simpl. apply IH.
Qed.

Lemma offset_loop_unfold (w : F) (cl : list (point F)) :
  offset_loop w cl =
    Ok (map (inner_point w cl) (live_segments cl),
        map (outer_point w cl) (live_segments cl)).
Proof.
  unfold offset_loop, live_segments. rewrite offset_run. reflexivity.
Qed.

(** C8: whatever the centerline, the offset loop of [calculate_boundaries]
    ends without a division by zero (no [inf] or [nan] offset): it builds
    exactly one inner and one outer point for each segment that has a
    length, in order, and nothing for a zero-length segment. *)
Theorem offset_loop_skips_degenerate (w : F) (cl : list (point F)) :
  offset_loop w cl =
    Ok (map (inner_point w cl) (live_segments cl),
        map (outer_point w cl) (live_segments cl)).
Proof.
  unfold offset_loop, live_segments. now rewrite offset_run.
Qed.

Lemma offset_loop_lengths (w : F) (cl : list (point F)) :
  exists inner outer,
    offset_loop w cl = Ok (inner, outer) /\
    length inner = length (live_segments cl) /\
    length outer = length (live_segments cl).
Proof.
  eexists _, _. split; [apply offset_loop_unfold|].
  now rewrite !length_map.
Qed.

(** The repair loop guards its division as well. *)
Lemma repair_step_finite (w : F) (inner outer : list (point F)) acc i :
  exists p q, repair_step w inner outer acc i = Ok (fst acc ++ [p], snd acc ++ [q]).
Proof.
  unfold repair_step, np_div.
  destruct (ltb _ w); [|eauto].
  destruct (eqb _ zero); simpl; eauto.
Qed.

End OffsetLoop.

(** ** Comparisons and truncation on the reals *)

Lemma Rltb_true (a b : R) : Rltb a b = true <-> (a < b)%R.
Proof. unfold Rltb. destruct (Rlt_dec a b); split; intros; auto; discriminate. Qed.

Lemma Rltb_false (a b : R) : Rltb a b = false <-> (b <= a)%R.
Proof.
  unfold Rltb. destruct (Rlt_dec a b); split; intros; auto; try discriminate; lra.
Qed.

Lemma Rleb_true (a b : R) : Rleb a b = true <-> (a <= b)%R.
Proof. unfold Rleb. destruct (Rle_dec a b); split; intros; auto; discriminate. Qed.

Lemma Rleb_false (a b : R) : Rleb a b = false <-> (b < a)%R.
Proof.
  unfold Rleb. destruct (Rle_dec a b); split; intros; auto; try discriminate; lra.
Qed.

Lemma Reqb_true (a b : R) : Reqb a b = true <-> a = b.
Proof. unfold Reqb. destruct (Req_dec_T a b); split; intros; auto; discriminate. Qed.

Lemma Reqb_false (a b : R) : Reqb a b = false <-> a <> b.
Proof.
  unfold Reqb. destruct (Req_dec_T a b); split; intros; auto; try discriminate.
  contradiction.
Qed.

Lemma Int_part_IZR (z : Z) : Int_part (IZR z) = z.
Proof.
  symmetry. apply Int_part_spec. split; lra.
Qed.

Lemma py_int_IZR (z : Z) : py_int (IZR z) = z.
Proof.
  unfold py_int. destruct (Rle_dec 0 (IZR z)) as [Hz|Hz].
  - apply Int_part_IZR.
  - rewrite <- opp_IZR, Int_part_IZR. lia.
Qed.

(** Truncation toward zero sends every real strictly between -1 and 1 to 0. *)
Lemma py_int_small (r : R) : (-1 < r < 1)%R -> py_int r = 0%Z.
Proof.
  intros [Hlo Hhi]. unfold py_int. destruct (Rle_dec 0 r) as [Hz|Hz].
  - symmetry. apply Int_part_spec. simpl. lra.
  - assert (Hi : Int_part (- r) = 0%Z).
    { symmetry. apply Int_part_spec. simpl. lra. }
    rewrite Hi. reflexivity.
Qed.

(** Truncation keeps a real of the canvas range inside the range. *)
Lemma py_int_bounds (r : R) (hi : Z) :
  (0 <= r < IZR hi)%R -> (0 <= py_int r < hi)%Z.
Proof.
  intros [Hlo Hhi]. unfold py_int. destruct (Rle_dec 0 r) as [_|Hn]; [|lra].
  destruct (base_Int_part r) as [Hle Hgt].
  split.
  - apply le_IZR. apply Rnot_lt_le. intros Hneg.
    assert (IZR (Int_part r) <= -1)%R.
    { apply IZR_le. apply lt_IZR in Hneg. lia. }
    lra.
  - apply lt_IZR. lra.
Qed.

(** At or beyond the left edge by a whole pixel, truncation is negative. *)
Lemma py_int_negative (r : R) : (r <= -1)%R -> (py_int r < 0)%Z.
Proof.
  intros Hr. unfold py_int. destruct (Rle_dec 0 r) as [Hz|_]; [lra|].
  destruct (base_Int_part (- r)) as [Hle Hgt].
  assert (0 < IZR (Int_part (- r)))%R by lra.
  apply lt_IZR in H. lia.
Qed.

(** At or beyond the right edge, truncation is at or beyond it too. *)
Lemma py_int_large (r : R) (hi : Z) : (IZR hi <= r)%R -> (0 <= hi)%Z -> (hi <= py_int r)%Z.
Proof.
  intros Hr Hhi. unfold py_int.
  assert (0 <= IZR hi)%R by (apply IZR_le; exact Hhi).
  destruct (Rle_dec 0 r) as [_|Hn]; [|lra].
  destruct (base_Int_part r) as [Hle Hgt].
  assert (IZR hi - 1 < IZR (Int_part r))%R by lra.
  rewrite <- minus_IZR in H0. apply lt_IZR in H0. lia.
Qed.

(** ** Steering (C9) *)

Lemma random_choice_pair (draw : nat) (a b : Z) :
  random_choice draw [a; b] = a \/ random_choice draw [a; b] = b.
Proof.
  unfold random_choice. simpl length.
  assert (Hlt : (draw mod 2 < 2)%nat) by (apply Nat.mod_upper_bound; discriminate).
  destruct (draw mod 2)%nat as [|[|k]]; simpl; [now left | now right | lia].
Qed.

(** C9: whatever the random source draws, the Simple policy on the readings
    [10, 100, 10, 100, 100] answers -10 or +10, and so never 0. *)
Theorem simple_logic_obstacle_ahead (draw : nat) :
  (simple_logic draw [10; 100; 10; 100; 100]%Z = Ok (-10)%Z \/
   simple_logic draw [10; 100; 10; 100; 100]%Z = Ok 10%Z) /\
  simple_logic draw [10; 100; 10; 100; 100]%Z <> Ok 0%Z.
Proof.
  unfold simple_logic. simpl.
  destruct (random_choice_pair draw (-10) 10) as [Hc|Hc]; rewrite Hc;
    split; auto; discriminate.
Qed.

(** Both sides are taken: the policy is not a constant on these readings. *)
Lemma simple_logic_both_turns :
  simple_logic 0 [10; 100; 10; 100; 100]%Z = Ok (-10)%Z /\
  simple_logic 1 [10; 100; 10; 100; 100]%Z = Ok 10%Z.
Proof. split; reflexivity. Qed.

(** ** The membership test (C6, C10) *)

Section Membership.
Import Car.

Lemma is_inside_track_finalized (c : Car) (mask : Mask) (px py : R) :
  Racing.finalized (track c) = true ->
  Racing.track_mask (track c) = Some mask ->
  is_inside_track c px py =
    if in_range 0 (py_int px) WIDTH && in_range 0 (py_int py) HEIGHT
    then PyBool (mask (py_int px) (py_int py))
    else PyBool false.
Proof.
  intros Hfin Hmask. unfold is_inside_track. now rewrite Hfin, Hmask.
Qed.

Lemma is_inside_track_not_ready (c : Car) (px py : R) :
  Racing.finalized (track c) = false \/ Racing.track_mask (track c) = None ->
  is_inside_track c px py = PyNone.
Proof.
  intros Hpre. unfold is_inside_track.
  destruct Hpre as [Hf|Hm]; [rewrite Hf | rewrite Hm];
    destruct (Racing.finalized (track c)); reflexivity.
Qed.

(** C10: while the track is not finalized, or has no mask, the membership
    test answers [None], not [False], at every coordinate; its callers
    read that as false: every ray of [sense] stops at distance 1 and
    [update] takes the car for off the track. *)
Theorem is_inside_track_none_before_finalize (c : Car) (px py ray_angle : R) :
  Racing.finalized (track c) = false \/ Racing.track_mask (track c) = None ->
  is_inside_track c px py = PyNone /\
  is_inside_track c px py <> PyBool false /\
  truthy (is_inside_track c px py) = false /\
  first_outside c ray_angle (range 1 200) = Some 1%Z /\
  off_track c = true.
Proof.
  intros Hpre.
  assert (Hnone : forall qx qy, is_inside_track c qx qy = PyNone).
  { intros qx qy. now apply is_inside_track_not_ready. }
  repeat split.
  - apply Hnone.
  - rewrite Hnone. discriminate.
  - now rewrite Hnone.
  - change (range 1 200) with (1%Z :: range 2 200).
    unfold first_outside, inside_at. now rewrite Hnone.
  - unfold off_track. now rewrite Hnone.
Qed.

(** X24: on a finalized track, a coordinate a whole pixel or more outside
    the canvas (x <= -1, x >= WIDTH, y <= -1 or y >= HEIGHT) is answered
    [False]; no index is out of the mask's range. *)
Lemma is_inside_track_whole_pixel_outside (c : Car) (mask : Mask) (px py : R) :
  Racing.finalized (track c) = true ->
  Racing.track_mask (track c) = Some mask ->
  (px <= -1 \/ IZR WIDTH <= px \/ py <= -1 \/ IZR HEIGHT <= py)%R ->
  is_inside_track c px py = PyBool false.
Proof.
  intros Hfin Hmask Hout.
  rewrite (is_inside_track_finalized c px py Hfin Hmask).
  assert (Hr : in_range 0 (py_int px) WIDTH && in_range 0 (py_int py) HEIGHT = false).
  { unfold in_range. apply andb_false_iff.
    destruct Hout as [Hx|[Hx|[Hy|Hy]]].
    - left. apply py_int_negative in Hx. apply andb_false_iff. left.
      apply Z.leb_gt. exact Hx.
    - left. apply py_int_large in Hx; [|discriminate]. apply andb_false_iff. right.
      apply Z.ltb_ge. exact Hx.
    - right. apply py_int_negative in Hy. apply andb_false_iff. left.
      apply Z.leb_gt. exact Hy.
    - right. apply py_int_large in Hy; [|discriminate]. apply andb_false_iff. right.
      apply Z.ltb_ge. exact Hy. }
  now rewrite Hr.
Qed.

(** C6, what the code does: a coordinate less than one pixel left of the
    canvas ([-1 < x < 0]) truncates to column 0, so the test answers the
    mask's bit at column 0, which may be set, and not [False]. *)
Theorem is_inside_track_left_fraction (c : Car) (mask : Mask) (px py : R) :
  Racing.finalized (track c) = true ->
  Racing.track_mask (track c) = Some mask ->
  (-1 < px < 0)%R ->
  (0 <= py < IZR HEIGHT)%R ->
  is_inside_track c px py = PyBool (mask 0%Z (py_int py)).
Proof.
  intros Hfin Hmask Hx Hy.
  rewrite (is_inside_track_finalized c px py Hfin Hmask).
  rewrite (@py_int_small px) by lra.
  pose proof (@py_int_bounds py HEIGHT Hy) as [Hlo Hhi].
  unfold in_range.
  replace (0 <=? py_int py)%Z with true by (symmetry; apply Z.leb_le; lia).
  replace (py_int py <? HEIGHT)%Z with true by (symmetry; apply Z.ltb_lt; lia).
  reflexivity.
Qed.

End Membership.

(** ** Closing the curves and finalizing *)

Section Finalize.
Context {F : Type} `{Scalar F}.

Lemma close_curve_length (l c : list (point F)) :
  close_curve l = Ok c -> length c = S (length l).
Proof.
  destruct l as [|p l]; simpl; [discriminate|].
  intros Hc. injection Hc as <-. simpl. rewrite length_app. simpl. lia.
Qed.


Lemma close_curve_nonempty (l : list (point F)) :
  l <> [] -> exists c, close_curve l = Ok c.
Proof. destruct l; [contradiction|]. intros _. eexists. reflexivity. Qed.

Lemma racing_boundaries_live (w : F) (cl : list (point F)) (i : nat) (rest : list nat) :
  live_segments cl = i :: rest ->
  Racing.calculate_boundaries w cl =
    Ok (map (inner_point w cl) (i :: rest) ++ [inner_point w cl i],
        map (outer_point w cl) (i :: rest) ++ [outer_point w cl i]).
Proof.
  intros Hlive. unfold Racing.calculate_boundaries.
  rewrite offset_loop_unfold, Hlive. reflexivity.
Qed.

(** With no segment of non-zero length, [inner[0]] raises. *)
Lemma racing_boundaries_dead (w : F) (cl : list (point F)) :
  live_segments cl = [] ->
  Racing.calculate_boundaries w cl = Err IndexError.
Proof.
  intros Hdead. unfold Racing.calculate_boundaries.
  rewrite offset_loop_unfold, Hdead. reflexivity.
Qed.

Lemma repair_run (w : F) (inner outer : list (point F)) (idxs : list nat) :
  forall acc, exists r,
    run_loop (repair_step w inner outer) acc idxs = Ok r /\
    length (fst r) = (length (fst acc) + length idxs)%nat /\
    length (snd r) = (length (snd acc) + length idxs)%nat.
Proof.
  induction idxs as [|i rest IH]; intros acc; simpl.
  - exists acc. repeat split; lia.
  - destruct (repair_step_finite w inner outer acc i) as (p & q & Hstep).
    rewrite Hstep. simpl.
    destruct (IH (fst acc ++ [p], snd acc ++ [q])) as (r & Hr & Hin & Hout).
    exists r. cbn [fst snd] in Hin, Hout.
    rewrite length_app in Hin. rewrite length_app in Hout.
    cbn [length] in Hin, Hout |- *.
    repeat split; [exact Hr | lia | lia].
Qed.



Section Smoother.
Variable spline_smooth : list (point F) -> F -> nat -> res (list (point F)).
Variable draw_polygon : list (point F) -> Mask.

Lemma racing_finalize_steps (t : Racing.Track F) (s cl : list (point F))
    (io : list (point F) * list (point F)) :
  (2 < length (Racing.centerline t))%nat ->
  spline_smooth (Racing.centerline t) two 200 = Ok s ->
  close_curve s = Ok cl ->
  Racing.calculate_boundaries (Racing.width t) cl = Ok io ->
  Racing.finalize spline_smooth draw_polygon t =
    Ok (Racing.mkTrack cl (fst io) (snd io) (Racing.width t) true
          (Some (snd io ++ rev (fst io)))
          (Some (draw_polygon (snd io ++ rev (fst io))))).
Proof.
  intros Hlen Hs Hcl Hio. unfold Racing.finalize, Racing.smooth_centerline.
  apply Nat.ltb_lt in Hlen. rewrite Hlen, Hs. simpl.
  rewrite Hcl. simpl. rewrite Hio. reflexivity.
Qed.

(** What a successful [finalize] on more than two points went through. *)
Lemma racing_finalize_inv (t t' : Racing.Track F) :
  (2 < length (Racing.centerline t))%nat ->
  Racing.finalize spline_smooth draw_polygon t = Ok t' ->
  exists s,
    spline_smooth (Racing.centerline t) two 200 = Ok s /\
    close_curve s = Ok (Racing.centerline t') /\
    Racing.finalized t' = true.
Proof.
  intros Hlen. unfold Racing.finalize, Racing.smooth_centerline.
  apply Nat.ltb_lt in Hlen. rewrite Hlen.
  destruct (spline_smooth _ two 200) as [s|e] eqn:Hs; simpl; [|discriminate].
  destruct (close_curve s) as [cl|e] eqn:Hcl; simpl; [|discriminate].
  destruct (Racing.calculate_boundaries _ cl) as [io|e]; simpl; [|discriminate].
  intros Ht. injection Ht as <-. exists s. simpl. auto.
Qed.


End Smoother.

End Finalize.

(** ** Exact arithmetic: lengths and separations *)

Section Exact.
Local Open Scope R_scope.

Lemma sum_squares_nonneg (a b : R) : 0 <= a * a + b * b.
Proof. nra. Qed.

Lemma norm_R (v : point R) : norm v = sqrt (fst v * fst v + snd v * snd v).
Proof. reflexivity. Qed.

Lemma norm_nonneg (v : point R) : 0 <= norm v.
Proof. rewrite norm_R. apply sqrt_pos. Qed.

Lemma norm_square (v : point R) : norm v * norm v = fst v * fst v + snd v * snd v.
Proof. rewrite norm_R. apply sqrt_sqrt. apply sum_squares_nonneg. Qed.

Lemma norm_zero_iff (v : point R) : norm v = 0 <-> v = (0, 0).
Proof.
  split.
  - intros Hn. pose proof (norm_square v) as Hsq. rewrite Hn in Hsq.
    destruct v as [a b]. simpl in Hsq.
    assert (a = 0) by nra. assert (b = 0) by nra. now subst.
  - intros ->. rewrite norm_R. simpl.
    replace (0 * 0 + 0 * 0) with 0 by ring. apply sqrt_0.
Qed.

(** Scaling a vector by a non-negative factor scales its length. *)
Lemma norm_scale (a b k : R) :
  0 <= k -> norm (a * k, b * k) = k * norm (a, b).
Proof.
  intros Hk. rewrite !norm_R. simpl.
  replace (a * k * (a * k) + b * k * (b * k)) with ((k * k) * (a * a + b * b)) by ring.
  rewrite sqrt_mult_alt by nra. now rewrite sqrt_square.
Qed.

(** A segment has a length exactly when its end points differ. *)
Lemma nondegenerate_iff (cl : list (point R)) (i : nat) :
  nondegenerate cl i = true <->
  nth ((i + 1) mod length cl) cl origin <> nth i cl origin.
Proof.
  unfold nondegenerate, segment_direction. rewrite negb_true_iff.
  change (eqb ?a zero) with (Reqb a 0). rewrite Reqb_false, norm_zero_iff.
  destruct (nth ((i + 1) mod length cl) cl origin) as [x2 y2].
  destruct (nth i cl origin) as [x1 y1]. unfold vsub. simpl.
  split; intros Hne Heq; apply Hne.
  - injection Heq as -> ->. f_equal; ring.
  - injection Heq as Hx Hy. f_equal; lra.
Qed.

Lemma degenerate_iff (cl : list (point R)) (i : nat) :
  nondegenerate cl i = false <->
  nth ((i + 1) mod length cl) cl origin = nth i cl origin.
Proof.
  rewrite <- not_true_iff_false, nondegenerate_iff.
  split; [|tauto].
  intros Hnn.
  destruct (nth ((i + 1) mod length cl) cl origin) as [x2 y2].
  destruct (nth i cl origin) as [x1 y1].
  destruct (Req_dec_T x2 x1) as [->|Hx]; [|exfalso; apply Hnn; congruence].
  destruct (Req_dec_T y2 y1) as [->|Hy]; [|exfalso; apply Hnn; congruence].
  reflexivity.
Qed.

(** In exact arithmetic the two points the offset loop builds for a
    segment are [|width|] apart. *)
Lemma offset_pair_separation (w : R) (cl : list (point R)) (i : nat) :
  nondegenerate cl i = true ->
  distance (inner_point w cl i) (outer_point w cl i) = Rabs w.
Proof.
  intros Hlive. unfold nondegenerate in Hlive. rewrite negb_true_iff in Hlive.
  change (eqb ?a zero) with (Reqb a 0) in Hlive. rewrite Reqb_false in Hlive.
  unfold distance, inner_point, outer_point, segment_offset, segment_start.
  set (d := segment_direction cl i) in *. set (len := norm d) in *.
  destruct (nth i cl origin) as [sx sy].
  unfold vadd, vsub, vscale. cbn [fst snd add sub mul div neg two R_scalar].
  rewrite norm_R. cbn [fst snd].
  pose proof (norm_square d) as Hsq. fold len in Hsq.
  match goal with |- sqrt ?e = _ => replace e with (w * w) end.
  - rewrite <- sqrt_Rsqr_abs. reflexivity.
  - field_simplify_eq; [|exact Hlive]. nra.
Qed.

(** So on the lists the offset loop builds, the test [distance < width]
    of the repair loop is false. *)
Lemma offset_pair_not_below_width (w : R) (cl : list (point R)) (i : nat) :
  nondegenerate cl i = true ->
  Rltb (distance (inner_point w cl i) (outer_point w cl i)) w = false.
Proof.
  intros Hlive. rewrite (offset_pair_separation w cl i Hlive).
  apply Rltb_false. apply Rle_abs.
Qed.

End Exact.

(** ** The repair loop (C1) *)

Section Repair.
Local Open Scope R_scope.

(** A pair at or above the width is appended as it is. *)
Lemma repair_step_unchanged (w : R) (inner outer : list (point R)) acc (i : nat) :
  w <= distance (nth i inner origin) (nth i outer origin) ->
  repair_step w inner outer acc i =
    Ok (fst acc ++ [nth i inner origin], snd acc ++ [nth i outer origin]).
Proof.
  intros Hfar. unfold repair_step.
  change (ltb ?a w) with (Rltb a w).
  apply Rltb_false in Hfar. unfold distance in Hfar. now rewrite Hfar.
Qed.

Lemma rescaled_separation (p q m : point R) (k : R) :
  0 <= k ->
  distance (vadd m (vscale (vsub p m) k)) (vadd m (vscale (vsub q m) k)) =
    k * distance p q.
Proof.
  intros Hk. unfold distance. destruct p as [px py], q as [qx qy], m as [mx my].
  unfold vadd, vsub, vscale. cbn [fst snd add sub mul R_scalar].
  rewrite <- (norm_scale (px - qx) (py - qy) Hk). f_equal. f_equal; ring.
Qed.

(** C1, what the code does: a pair closer than [width], and not
    coincident, is rescaled about its midpoint by [(width / 2) / distance],
    a factor applied to the half-vectors, so the pair ends [width / 2]
    apart: half the width the test compared against, and still below it. *)
Theorem repair_step_halves_separation (w : R) (inner outer : list (point R))
    (acc : list (point R) * list (point R)) (i : nat) :
  0 < distance (nth i inner origin) (nth i outer origin) < w ->
  exists p q,
    repair_step w inner outer acc i = Ok (fst acc ++ [p], snd acc ++ [q]) /\
    distance p q = w / 2 /\
    distance p q < w.
Proof.
  intros [Hpos Hnear]. unfold repair_step.
  set (p_inner := nth i inner origin) in *. set (p_outer := nth i outer origin) in *.
  fold (distance p_inner p_outer). set (d := distance p_inner p_outer) in *.
  change (ltb d w) with (Rltb d w). change (eqb d zero) with (Reqb d 0).
  assert (Hlt : Rltb d w = true) by (apply Rltb_true; exact Hnear).
  assert (Hne : Reqb d 0 = false) by (apply Reqb_false; lra).
  rewrite Hlt, Hne. unfold np_div. change (eqb d zero) with (Reqb d 0).
  rewrite Hne. cbn [negb bind].
  eexists _, _. split; [reflexivity|].
  change (div (div w two) d) with (w / 2 / d).
  assert (Hk : 0 <= w / 2 / d).
  { apply Rlt_le. apply Rdiv_lt_0_compat; lra. }
  rewrite (rescaled_separation p_inner p_outer _ Hk). fold d.
  split.
  - field. lra.
  - replace (w / 2 / d * d) with (w / 2) by (field; lra). lra.
Qed.

(** Coincident points have no axis to move along: they stay where they are. *)
Lemma repair_step_coincident (w : R) (inner outer : list (point R)) acc (i : nat) :
  0 < w ->
  nth i inner origin = nth i outer origin ->
  repair_step w inner outer acc i =
    Ok (fst acc ++ [nth i inner origin], snd acc ++ [nth i inner origin]).
Proof.
  intros Hw Heq. unfold repair_step. rewrite <- Heq.
  set (p := nth i inner origin).
  assert (Hz : norm (vsub p p) = 0).
  { apply norm_zero_iff. destruct p as [a b]. unfold vsub. simpl. f_equal; ring. }
  rewrite Hz. change (ltb 0 w) with (Rltb 0 w). change (eqb 0 zero) with (Reqb 0 0).
  assert (Hlt : Rltb 0 w = true) by (apply Rltb_true; exact Hw).
  assert (He : Reqb 0 0 = true) by (apply Reqb_true; reflexivity).
  rewrite Hlt, He. cbn [negb bind].
  assert (Hp : vadd (vhalve (vadd p p)) (vscale (vsub p (vhalve (vadd p p))) half) = p).
  { destruct p as [a b]. unfold vadd, vhalve, vsub, vscale.
    cbn [fst snd add sub mul div two half R_scalar]. f_equal; field. }
  now rewrite Hp.
Qed.

End Repair.

(** ** The worked track, finalized *)

Section SampleRun.
Import Sample.
Local Open Scope R_scope.

Lemma filter_all {A : Type} (f : A -> bool) (l : list A) :
  (forall a, In a l -> f a = true) -> filter f l = l.
Proof.
  induction l as [|a l IH]; intros Hall; simpl; [reflexivity|].
  rewrite (Hall a) by now left.
  f_equal. apply IH. intros b Hb. apply Hall. now right.
Qed.

Lemma line_length (p0 : point R) (n : nat) : length (line p0 n) = n.
Proof. unfold line. now rewrite length_map, length_seq. Qed.

Lemma line_nth (p0 : point R) (n i : nat) :
  (i < n)%nat -> nth i (line p0 n) origin = (fst p0 + INR i, snd p0 + 1).
Proof.
  intros Hi. unfold line.
  rewrite (nth_indep _ origin ((fun k => (fst p0 + INR k, snd p0 + 1)) O))
    by now rewrite length_map, length_seq.
  rewrite (map_nth (fun k => (fst p0 + INR k, snd p0 + 1))).
  now rewrite seq_nth.
Qed.

Lemma line_closed (p0 : point R) (n : nat) :
  (0 < n)%nat ->
  close_curve (line p0 n) = Ok (line p0 n ++ [(fst p0 + INR 0, snd p0 + 1)]).
Proof.
  intros Hn. destruct n as [|n]; [lia|]. reflexivity.
Qed.

(** On the closed line every segment has a length but the last one, which
    joins the closing point to the first point it repeats. *)
Lemma line_live_segments (p0 : point R) (n : nat) :
  (2 <= n)%nat ->
  live_segments (line p0 n ++ [(fst p0 + INR 0, snd p0 + 1)]) = seq 0 n.
Proof.
  intros Hn. unfold live_segments.
  set (cl := line p0 n ++ [(fst p0 + INR 0, snd p0 + 1)]).
  assert (Hlen : length cl = S n).
  { unfold cl. rewrite length_app, line_length. simpl. lia. }
  assert (Hlast : nth n cl origin = (fst p0 + INR 0, snd p0 + 1)).
  { unfold cl. rewrite app_nth2; rewrite line_length; [|lia].
    now rewrite Nat.sub_diag. }
  assert (Hin : forall i, (i < n)%nat -> nth i cl origin = (fst p0 + INR i, snd p0 + 1)).
  { intros i Hi. unfold cl. rewrite app_nth1 by (rewrite line_length; lia).
    now apply line_nth. }
  rewrite Hlen, seq_S, filter_app. simpl.
  replace (nondegenerate cl n) with false.
  - rewrite app_nil_r. apply filter_all. intros i Hi.
    apply in_seq in Hi. apply nondegenerate_iff. rewrite Hlen.
    rewrite Nat.mod_small by lia. rewrite (Hin i) by lia.
    destruct (Nat.eq_dec (i + 1) n) as [Heq|Hne].
    + rewrite Heq, Hlast. intros Hp. injection Hp as Hx.
      assert (Hi0 : INR i = INR 0) by (simpl; lra).
      apply INR_eq in Hi0. lia.
    + rewrite Hin by lia. intros Hp. injection Hp as Hx.
      assert (Hi0 : INR (i + 1) = INR i) by lra.
      apply INR_eq in Hi0. lia.
  - symmetry. apply degenerate_iff. rewrite Hlen.
    replace (n + 1)%nat with (S n) by lia. rewrite Nat.Div0.mod_same.
    rewrite Hlast. apply Hin. lia.
Qed.

Lemma finalized_track_run :
  Racing.finalize resample_line draw_band drawing = Ok finalized_track /\
  Racing.centerline finalized_track = closed_line /\
  Racing.finalized finalized_track = true /\
  Racing.track_mask finalized_track = Some band_mask /\
  length (Racing.inner_boundary finalized_track) = 201%nat /\
  length (Racing.outer_boundary finalized_track) = 201%nat.
Proof.
  assert (Hlive : live_segments closed_line = O :: seq 1 199).
  { exact (@line_live_segments (0, 499) 200 ltac:(lia)). }
  pose proof (racing_boundaries_live 80 closed_line Hlive) as Hio.
  assert (Hrun := @racing_finalize_steps R _ resample_line draw_band drawing
            (line (0, 499) 200) closed_line _ ltac:(simpl; lia) eq_refl
            (@line_closed (0, 499) 200 ltac:(lia)) Hio).
  unfold finalized_track. rewrite Hrun. cbn [unwrap].
  split; [reflexivity|].
  cbn [Racing.centerline Racing.finalized Racing.track_mask Racing.inner_boundary
       Racing.outer_boundary fst snd].
  repeat split.
Qed.

End SampleRun.

(** ** Finalizing (C3, C4, C5) *)

Section FinalizeClaims.
Local Open Scope R_scope.



Section Smoother.
Variable spline_smooth : list (point R) -> R -> nat -> res (list (point R)).
Variable draw_polygon : list (point R) -> Mask.

(** Lines 51-53: the fit is evaluated at [num_points] parameters. *)
Hypothesis spline_smooth_length :
  forall pts s n l, spline_smooth pts s n = Ok l -> length l = n.


End Smoother.

End FinalizeClaims.

Section FinalizeRuns.
Import Sample.
Local Open Scope R_scope.





(** C4 does not hold of [finalize] itself, which does not look at
    [finalized].  Called on the finalized track it fits the spline again,
    through the closed centerline this time, and the centerline it stores
    is another one. *)
Lemma finalize_again_recomputes :
  Racing.finalized finalized_track = true /\
  Racing.finalize resample_line draw_band finalized_track <> Ok finalized_track.
Proof.
  destruct finalized_track_run as (_ & Hcl & Hfin & _).
  split; [exact Hfin|].
  intros Hrun.
  apply racing_finalize_inv in Hrun; [|rewrite Hcl; simpl; lia].
  destruct Hrun as (s & Hs & Hclose & _).
  rewrite Hcl in Hs, Hclose. unfold resample_line in Hs. injection Hs as <-.
  rewrite (@line_closed _ 200) in Hclose by lia.
  apply (f_equal (fun r => snd (hd origin (unwrap [] r)))) in Hclose.
  simpl in Hclose. lra.
Qed.

End FinalizeRuns.

Section FinalizeTrigger.
Context {F : Type} `{Scalar F}.
Variable spline_smooth : list (point F) -> F -> nat -> res (list (point F)).
Variable draw_polygon : list (point F) -> Mask.

Lemma racing_handle_event_finalized (t : Racing.Track F) (e : event F) :
  Racing.finalized t = true ->
  Racing.handle_event spline_smooth draw_polygon t e = Ok t.
Proof. intros Hfin. unfold Racing.handle_event. now rewrite Hfin. Qed.

Lemma test_handle_event_finalized (t : BoundaryTest.Track F) (e : event F) :
  BoundaryTest.finalized t = true ->
  BoundaryTest.handle_event spline_smooth t e = Ok t.
Proof. intros Hfin. unfold BoundaryTest.handle_event. now rewrite Hfin. Qed.

(** C4, at the trigger: the finalize trigger is idempotent.
    [handle_events], the caller of [finalize], handles no drawing event and
    no SPACE key once [finalized] is true: whatever the events, it leaves
    the centerline, both boundaries, the polygon, the mask and the flag as
    they are, in the racing simulation and in the boundary test. *)
Theorem finalize_trigger_idempotent :
  (forall (t : Racing.Track F) (events : list (event F)),
      Racing.finalized t = true ->
      exists running,
        Racing.handle_events spline_smooth draw_polygon t events = Ok (running, t)) /\
  (forall (t : BoundaryTest.Track F) (events : list (event F)),
      BoundaryTest.finalized t = true ->
      exists running,
        BoundaryTest.handle_events spline_smooth t events = Ok (running, t)).
Proof.
  split; intros t events Hfin.
  - induction events as [|e rest IH]; simpl; [eauto|].
    destruct e; eauto;
      rewrite (@racing_handle_event_finalized t _ Hfin); simpl; exact IH.
  - induction events as [|e rest IH]; simpl; [eauto|].
    destruct e; eauto;
      rewrite (@test_handle_event_finalized t _ Hfin); simpl; exact IH.
Qed.

(** C5: with fewer than three centerline points [finalize] changes
    nothing: it fits no spline, computes no boundary and no mask, and
    answers the track as it was, [finalized] as false as before. *)
Theorem finalize_too_short_noop (t : Racing.Track F) :
  (length (Racing.centerline t) < 3)%nat ->
  Racing.finalize spline_smooth draw_polygon t = Ok t.
Proof.
  intros Hshort. unfold Racing.finalize.
  replace (2 <? length (Racing.centerline t))%nat with false; [reflexivity|].
  symmetry. apply Nat.ltb_ge. lia.
Qed.

Lemma test_finalize_too_short_noop (t : BoundaryTest.Track F) :
  (length (BoundaryTest.centerline t) < 3)%nat ->
  BoundaryTest.finalize spline_smooth t = Ok t.
Proof.
  intros Hshort. unfold BoundaryTest.finalize.
  replace (2 <? length (BoundaryTest.centerline t))%nat with false; [reflexivity|].
  symmetry. apply Nat.ltb_ge. lia.
Qed.

End FinalizeTrigger.

Section FinalizeTriggerRuns.
Import Sample.
Local Open Scope R_scope.

Lemma finalize_trigger_idempotent_witness :
  Racing.finalized finalized_track = true /\
  exists running,
    Racing.handle_events resample_line draw_band finalized_track
      [MouseButtonDown (5, 5); KeyDown true; MouseMotion true (6, 5)] =
    Ok (running, finalized_track).
Proof.
  destruct finalized_track_run as (_ & _ & Hfin & _).
  split; [exact Hfin|].
  apply (proj1 (@finalize_trigger_idempotent R _ resample_line draw_band)).
  exact Hfin.
Defined.

Lemma finalize_too_short_noop_witness :
  (length (Racing.centerline (Racing.mkTrack [(0, 499); (1, 499)] [] [] 80 false None None))
     < 3)%nat /\
  Racing.finalize resample_line draw_band
    (Racing.mkTrack [(0, 499); (1, 499)] [] [] 80 false None None) =
  Ok (Racing.mkTrack [(0, 499); (1, 499)] [] [] 80 false None None).
Proof.
  split.
  - simpl. lia.
  - apply (@finalize_too_short_noop R _ resample_line draw_band). simpl. lia.
Defined.

End FinalizeTriggerRuns.

(** ** Sensors (C2) *)

Section Sensors.
Import Car.
Local Open Scope R_scope.

Lemma set_item_spec {A : Type} (l : list A) (i : nat) (v : A) :
  (i < length l)%nat ->
  exists l',
    set_item l i v = Ok l' /\
    length l' = length l /\
    nth_error l' i = Some v /\
    forall j, j <> i -> nth_error l' j = nth_error l j.
Proof.
  revert i. induction l as [|a l IH]; intros i Hi; simpl in Hi; [lia|].
  destruct i as [|i].
  - eexists. simpl. repeat split. intros [|j] Hj; [contradiction|reflexivity].
  - destruct (IH i ltac:(lia)) as (l' & Hset & Hlen & Hat & Hother).
    exists (a :: l'). simpl. rewrite Hset. simpl. repeat split.
    + now rewrite Hlen.
    + exact Hat.
    + intros [|j] Hj; [reflexivity|]. simpl. apply Hother. lia.
Qed.

Lemma range_spec (lo hi d : Z) : In d (range lo hi) <-> (lo <= d < hi)%Z.
Proof.
  unfold range. rewrite in_map_iff. split.
  - intros (k & <- & Hk). apply in_seq in Hk. lia.
  - intros Hd. exists (Z.to_nat (d - lo)). split; [lia|]. apply in_seq. lia.
Qed.

(** A ray whose every sample is on the track meets no point to stop at. *)
Lemma first_outside_none (c : Car) (ray_angle : R) (dists : list Z) :
  first_outside c ray_angle dists = None <->
  (forall d, In d dists -> inside_at c ray_angle d = true).
Proof.
  induction dists as [|d0 rest IH]; simpl.
  - split; [intros _ d []|reflexivity].
  - destruct (inside_at c ray_angle d0) eqn:Hin; simpl.
    + rewrite IH. split.
      * intros Hall d [<-|Hd]; [exact Hin | now apply Hall].
      * intros Hall d Hd. apply Hall. now right.
    + split; [discriminate|]. intros Hall.
      rewrite (Hall d0) in Hin by now left. discriminate.
Qed.

(** When the loop stops, it stops at the first sample off the track. *)
Lemma first_outside_seq (c : Car) (ray_angle : R) (lo : Z) (n : nat) :
  forall (s : nat) (d : Z),
    first_outside c ray_angle (map (fun k => (lo + Z.of_nat k)%Z) (seq s n)) = Some d ->
    (lo + Z.of_nat s <= d < lo + Z.of_nat s + Z.of_nat n)%Z /\
    inside_at c ray_angle d = false /\
    forall d', (lo + Z.of_nat s <= d' < d)%Z -> inside_at c ray_angle d' = true.
Proof.
  induction n as [|n IH]; intros s d; simpl; [discriminate|].
  destruct (inside_at c ray_angle (lo + Z.of_nat s)) eqn:Hin; simpl.
  - intros Hrest. destruct (IH (S s) d Hrest) as (Hd & Hout & Hbefore).
    repeat split; [lia | lia | exact Hout |].
    intros d' Hd'. destruct (Z.eq_dec d' (lo + Z.of_nat s)) as [->|Hne]; [exact Hin|].
    apply Hbefore. lia.
  - intros Hd. injection Hd as <-. repeat split; [lia | lia | exact Hin |].
    intros d' Hd'. lia.
Qed.

Lemma first_outside_range (c : Car) (ray_angle : R) (d : Z) :
  first_outside c ray_angle (range 1 200) = Some d ->
  (1 <= d < 200)%Z /\
  inside_at c ray_angle d = false /\
  forall d', (1 <= d' < d)%Z -> inside_at c ray_angle d' = true.
Proof.
  unfold range. intros Hd. apply first_outside_seq in Hd.
  destruct Hd as (Hr & Hout & Hbefore).
  repeat split; [lia | lia | exact Hout |]. intros d' Hd'. apply Hbefore. lia.
Qed.

Lemma sense_ray_spec (c : Car) (readings : list Z) (entry : nat * Z) :
  (fst entry < length readings)%nat ->
  exists readings',
    sense_ray c readings entry = Ok readings' /\
    length readings' = length readings /\
    (forall j, j <> fst entry -> nth_error readings' j = nth_error readings j) /\
    (first_outside c (angle c + IZR (snd entry)) (range 1 200) = None ->
     readings' = readings).
Proof.
  intros Hi. unfold sense_ray.
  destruct (first_outside c _ (range 1 200)) as [dist|].
  - destruct (set_item_spec readings dist Hi) as (l' & Hset & Hlen & _ & Hother).
    exists l'. repeat split; auto. discriminate.
  - exists readings. repeat split; auto.
Qed.

Lemma sense_loop_spec (c : Car) (entries : list (nat * Z)) :
  forall readings,
    (forall e, In e entries -> (fst e < length readings)%nat) ->
    exists readings',
      sense_loop c readings entries = Ok readings' /\
      length readings' = length readings /\
      forall i,
        (forall e, In e entries -> fst e = i ->
           first_outside c (angle c + IZR (snd e)) (range 1 200) = None) ->
        nth_error readings' i = nth_error readings i.
Proof.
  induction entries as [|e rest IH]; intros readings Hidx; simpl.
  - exists readings. auto.
  - destruct (@sense_ray_spec c readings e (Hidx e ltac:(now left)))
      as (r1 & Hray & Hlen1 & Hother & Hnone).
    rewrite Hray. simpl.
    destruct (IH r1) as (r2 & Hloop & Hlen2 & Hkeep).
    { intros e' He'. rewrite Hlen1. apply Hidx. now right. }
    exists r2. repeat split; [exact Hloop | congruence |].
    intros i Hi. rewrite Hkeep by (intros e' He'; apply Hi; now right).
    destruct (Nat.eq_dec i (fst e)) as [->|Hne].
    + rewrite Hnone; [reflexivity|]. apply Hi; [now left | reflexivity].
    + apply Hother. exact Hne.
Qed.

(** With five readings [sense] returns; it changes the readings only. *)
Lemma sense_total (c : Car) :
  length (sensors c) = 5%nat ->
  exists readings,
    sense c = Ok (set_sensors c readings) /\ length readings = 5%nat.
Proof.
  intros Hfive. unfold sense.
  destruct (@sense_loop_spec c (enumerate sensor_angles) (sensors c))
    as (r & Hloop & Hlen & _).
  { intros e He. rewrite Hfive. simpl in He.
    repeat (destruct He as [<-|He]; [simpl; lia|]). contradiction. }
  rewrite Hloop. simpl. exists r. split; [reflexivity | congruence].
Qed.

(** C2, what the code does: on a ray whose 199 samples (distances 1 to
    199) are all on the track the loop ends without writing, so the
    reading of that ray is the one an earlier tick left, whatever it
    was, and not the maximum range. *)
Theorem sense_keeps_stale_reading (c : Car) (i : nat) (sensor_angle : Z) :
  length (sensors c) = 5%nat ->
  nth_error sensor_angles i = Some sensor_angle ->
  (forall d, (1 <= d < 200)%Z -> inside_at c (angle c + IZR sensor_angle) d = true) ->
  exists c1,
    sense c = Ok c1 /\
    nth_error (sensors c1) i = nth_error (sensors c) i.
Proof.
  intros Hfive Hentry Hinside. unfold sense.
  destruct (@sense_loop_spec c (enumerate sensor_angles) (sensors c))
    as (r & Hloop & Hlen & Hkeep).
  { intros e He. rewrite Hfive. simpl in He.
    repeat (destruct He as [<-|He]; [simpl; lia|]). contradiction. }
  rewrite Hloop. simpl. eexists. split; [reflexivity|]. simpl.
  apply Hkeep. intros e He Hi.
  assert (Hangle : snd e = sensor_angle).
  { simpl in He.
    repeat (destruct He as [<-|He];
            [simpl in Hi; subst i; simpl in Hentry; simpl; congruence|]).
    contradiction. }
  rewrite Hangle. apply first_outside_none.
  intros d Hd. apply Hinside. now apply range_spec.
Qed.

(** Where a sample within 199 is off the track, the reading becomes the
    smallest such distance. *)
Lemma sense_ray_first_exit (c : Car) (readings : list Z) (i : nat) (sensor_angle d : Z) :
  (i < length readings)%nat ->
  (1 <= d < 200)%Z ->
  inside_at c (angle c + IZR sensor_angle) d = false ->
  exists readings' dist,
    sense_ray c readings (i, sensor_angle) = Ok readings' /\
    nth_error readings' i = Some dist /\
    (1 <= dist <= d)%Z /\
    inside_at c (angle c + IZR sensor_angle) dist = false /\
    forall d', (1 <= d' < dist)%Z -> inside_at c (angle c + IZR sensor_angle) d' = true.
Proof.
  intros Hi Hd Hout. unfold sense_ray. simpl fst. simpl snd.
  destruct (first_outside c _ (range 1 200)) as [dist|] eqn:Hfirst.
  - destruct (first_outside_range _ _ Hfirst) as (Hr & Hdist & Hbefore).
    destruct (set_item_spec readings dist Hi) as (l' & Hset & _ & Hat & _).
    exists l', dist. repeat split; auto; try lia.
    destruct (Z_le_gt_dec dist d) as [Hle|Hgt]; [exact Hle|].
    rewrite (Hbefore d) in Hout by lia. discriminate.
  - exfalso. rewrite first_outside_none in Hfirst.
    rewrite (Hfirst d) in Hout by (apply range_spec; lia). discriminate.
Qed.

End Sensors.

Section SensorRuns.
Import Car Sample.
Local Open Scope R_scope.

Lemma radians_0 : radians (0 + IZR 0) = 0.
Proof. unfold radians. field. Qed.

(** Along the band every sample of the centre ray of [stale_car] is on
    the track. *)
Lemma stale_car_centre_ray (d : Z) :
  (1 <= d < 200)%Z -> inside_at stale_car (angle stale_car + IZR 0) d = true.
Proof.
  intros Hd. unfold inside_at, ray_point. cbn [fst snd].
  change (angle stale_car) with 0. change (x stale_car) with 0.
  change (y stale_car) with 500.
  rewrite radians_0, cos_0, sin_0.
  replace (0 + 1 * IZR d) with (IZR d) by ring.
  replace (500 - 0 * IZR d) with (IZR 500) by ring.
  destruct finalized_track_run as (_ & _ & Hfin & Hmask & _).
  rewrite (@is_inside_track_finalized stale_car band_mask _ _ Hfin Hmask).
  rewrite !py_int_IZR. unfold in_range, band_mask, WIDTH, HEIGHT.
  replace (0 <=? d)%Z with true by (symmetry; apply Z.leb_le; lia).
  replace (d <? 1080)%Z with true by (symmetry; apply Z.ltb_lt; lia).
  replace (d <? 200)%Z with true by (symmetry; apply Z.ltb_lt; lia).
  reflexivity.
Qed.

Lemma sense_keeps_stale_reading_witness :
  (forall d, (1 <= d < 200)%Z -> inside_at stale_car (angle stale_car + IZR 0) d = true) /\
  exists c1,
    sense stale_car = Ok c1 /\
    nth_error (sensors c1) 2 = Some 30%Z.
Proof.
  split; [exact stale_car_centre_ray|].
  apply (@sense_keeps_stale_reading stale_car 2 0%Z).
  - reflexivity.
  - reflexivity.
  - exact stale_car_centre_ray.
Defined.

End SensorRuns.

(** ** Collision and reset (C7) *)

Section Collision.
Import Car.
Local Open Scope R_scope.

Lemma sense_fields (c c1 : Car) :
  sense c = Ok c1 -> c1 = set_sensors c (sensors c1).
Proof.
  unfold sense. destruct (sense_loop c (sensors c) (enumerate sensor_angles)); simpl;
    [|discriminate].
  intros Hc. injection Hc as <-. reflexivity.
Qed.

(** C7: a tick that senses, steers and moves the car to a position that
    fails the membership test or lies off the canvas ends with the car at
    its start position, heading 0, speed 2, and [collided] false. *)
Theorem update_collision_resets (draw : nat) (c c1 : Car) (turn_angle : R) :
  collided c = false ->
  sense c = Ok c1 ->
  ai_model c1 draw (sensors c1) = Ok turn_angle ->
  off_track (move (steer c1 turn_angle)) = true ->
  exists c',
    update draw c = Ok c' /\
    x c' = start_x c /\
    y c' = start_y c /\
    angle c' = 0 /\
    speed c' = 2 /\
    collided c' = false.
Proof.
  intros Hdriving Hsense Hturn Hoff. unfold update.
  rewrite Hdriving, Hsense. cbn [negb bind]. rewrite Hturn. cbn [bind].
  rewrite Hoff. eexists. split; [reflexivity|].
  apply sense_fields in Hsense. rewrite Hsense. repeat split.
Qed.

(** A tick that ends on the track leaves [collided] false as well, so
    every tick starts with the car driving. *)
Lemma update_keeps_driving (draw : nat) (c c' : Car) :
  collided c = false -> update draw c = Ok c' -> collided c' = false.
Proof.
  intros Hdriving. unfold update. rewrite Hdriving. cbn [negb].
  destruct (sense c) as [c1|] eqn:Hsense; simpl; [|discriminate].
  destruct (ai_model c1 draw (sensors c1)) as [turn|]; simpl; [|discriminate].
  destruct (off_track _); intros Hc; injection Hc as <-; [reflexivity|].
  apply sense_fields in Hsense. rewrite Hsense. exact Hdriving.
Qed.

Lemma simple_model_total (draw : nat) (s : list Z) :
  length s = 5%nat -> exists turn, simple_model draw s = Ok turn.
Proof.
  intros Hs. destruct s as [|s0 [|s1 [|s2 [|s3 [|s4 [|]]]]]]; try discriminate.
  unfold simple_model, simple_logic. simpl.
  destruct (s2 <? 50)%Z; simpl; [eauto|].
  destruct (s0 <? 50)%Z; simpl; [eauto|].
  destruct (s4 <? 50)%Z; simpl; eauto.
Qed.

Lemma advanced_model_total (draw : nat) (s : list Z) :
  length s = 5%nat -> exists turn, advanced_model draw s = Ok turn.
Proof.
  intros Hs. destruct s as [|s0 [|s1 [|s2 [|s3 [|s4 [|]]]]]]; try discriminate.
  unfold advanced_model, advanced_logic. simpl.
  destruct (s2 <? 30)%Z; simpl; [eauto|].
  destruct ((s0 <? 20) || (s4 <? 20))%Z; simpl; eauto.
Qed.

(** With five readings and a policy that answers on five readings, the
    tick returns. *)
Lemma update_total (draw : nat) (c : Car) :
  length (sensors c) = 5%nat ->
  (forall s, length s = 5%nat -> exists turn, ai_model c draw s = Ok turn) ->
  exists c', update draw c = Ok c'.
Proof.
  intros Hfive Hmodel. unfold update.
  destruct (collided c); cbn [negb]; [eauto|].
  destruct (sense_total c Hfive) as (r & Hsense & Hr).
  rewrite Hsense. cbn [bind].
  destruct (Hmodel r Hr) as (turn & Hturn).
  change (ai_model (set_sensors c r)) with (ai_model c).
  change (sensors (set_sensors c r)) with r. rewrite Hturn. cbn [bind].
  destruct (off_track _); eauto.
Qed.

End Collision.

Section CollisionRuns.
Import Car Sample.
Local Open Scope R_scope.

Lemma early_car_sense :
  sense early_car = Ok (set_sensors early_car [1; 1; 1; 1; 1]%Z).
Proof. reflexivity. Qed.

Lemma update_collision_resets_witness :
  collided early_car = false /\
  exists c',
    update 0 early_car = Ok c' /\
    x c' = 0 /\ y c' = 499 /\ angle c' = 0 /\ speed c' = 2 /\ collided c' = false.
Proof.
  split; [reflexivity|].
  apply (@update_collision_resets 0 early_car
           (set_sensors early_car [1; 1; 1; 1; 1]%Z) (IZR (-10))).
  - reflexivity.
  - exact early_car_sense.
  - reflexivity.
  - unfold off_track. rewrite is_inside_track_not_ready by (left; reflexivity).
    reflexivity.
Defined.

Lemma is_inside_track_none_before_finalize_witness :
  Racing.finalized (track early_car) = false /\
  is_inside_track early_car 0 499 = PyNone /\
  first_outside early_car 0 (range 1 200) = Some 1%Z /\
  off_track early_car = true.
Proof.
  split; [reflexivity|].
  destruct (@is_inside_track_none_before_finalize early_car 0 499 0
              (or_introl eq_refl)) as (Hnone & _ & _ & Hfirst & Hoff).
  auto.
Defined.

(** A query half a pixel left of the canvas, at the row of the band. *)
Lemma is_inside_track_left_fraction_witness :
  (-1 < -1 / 2 < 0) /\
  is_inside_track stale_car (-1 / 2) 500 = PyBool true.
Proof.
  split; [lra|].
  destruct finalized_track_run as (_ & _ & Hfin & Hmask & _).
  rewrite (@is_inside_track_left_fraction stale_car band_mask (-1 / 2) 500 Hfin Hmask).
  - replace 500 with (IZR 500) by reflexivity. rewrite py_int_IZR. reflexivity.
  - lra.
  - unfold HEIGHT. lra.
Defined.

End CollisionRuns.

Section RepairRuns.
Local Open Scope R_scope.

Lemma distance_3_4 : distance ((0, 0) : point R) (3, 4) = 5.
Proof.
  unfold distance. rewrite norm_R. unfold vsub. cbn [fst snd sub R_scalar].
  apply sqrt_lem_1; lra.
Qed.

Lemma repair_step_halves_separation_witness :
  0 < distance ((0, 0) : point R) (3, 4) < 80 /\
  exists p q,
    repair_step 80 [(0, 0)] [(3, 4)] ([], []) 0 = Ok ([p], [q]) /\
    distance p q = 80 / 2 /\
    distance p q < 80.
Proof.
  assert (Hd : 0 < distance ((0, 0) : point R) (3, 4) < 80).
  { rewrite distance_3_4. lra. }
  split; [exact Hd|].
  exact (@repair_step_halves_separation 80 [(0, 0)] [(3, 4)] ([], []) 0%nat Hd).
Defined.

End RepairRuns.

(** ** The repair loop in binary64 *)

Section Binary64Runs.
Import PrimFloat.
Local Open Scope float_scope.

(** In binary64 the offset loop rounds: on [Binary64.centerline] with width
    80 the pair of the first segment (and its copy that closes the curve)
    comes out one unit in the last place closer than 80.  The racing
    simulation's [calculate_boundaries] is the offset loop and the closing,
    the first half of the boundary test's. *)
Lemma binary64_offset_separations :
  bind (Racing.calculate_boundaries 80 Binary64.centerline)
       (fun io => Ok (Binary64.separations io)) =
  Ok [0x1.3ffffffffffffp+6; 80; 80; 80; 0x1.3ffffffffffffp+6].
Proof. vm_compute. reflexivity. Qed.

(** The repair loop takes that pair for a pinch and leaves it 40 apart:
    after the repair of the boundary test two of the five pairs are at half
    the width. *)
Lemma binary64_repair_collapses_pair :
  bind (BoundaryTest.repaired_boundaries 80 Binary64.centerline)
       (fun io => Ok (Binary64.separations io)) =
  Ok [40; 80; 80; 80; 40].
Proof. vm_compute. reflexivity. Qed.

End Binary64Runs.

(** * Further properties of the code *)

(** ** Drawing the centerline: [add_point] and [handle_events] *)

Section Drawing.
Local Open Scope R_scope.

Lemma point_eqb_true (p q : point R) : point_eqb p q = true <-> p = q.
Proof.
  unfold point_eqb. change (eqb ?a ?b) with (Reqb a b).
  rewrite andb_true_iff, !Reqb_true. destruct p, q; simpl.
  split; [intros [-> ->]; reflexivity | intros Hpq; injection Hpq; auto].
Qed.

Lemma rev_cons_last {A : Type} (l r : list A) (a : A) :
  rev l = a :: r -> l = rev r ++ [a].
Proof.
  intros Hrev. rewrite <- (rev_involutive l), Hrev. reflexivity.
Qed.

Lemma ends_with_rev {A : Type} (l : list A) (p : A) :
  (exists l0, l = l0 ++ [p]) <-> exists r, rev l = p :: r.
Proof.
  split.
  - intros (l0 & ->). exists (rev l0). now rewrite rev_app_distr.
  - intros (r & Hr). exists (rev r). now apply rev_cons_last.
Qed.

Lemma ends_with_decide (l : list (point R)) (p : point R) :
  (exists l0, l = l0 ++ [p]) \/ ~ (exists l0, l = l0 ++ [p]).
Proof.
  destruct (rev l) as [|a r] eqn:Hrev.
  - right. intros Hends. apply ends_with_rev in Hends.
    destruct Hends as (r & Hr). congruence.
  - destruct (point_eqb p a) eqn:Hpa.
    + apply point_eqb_true in Hpa. subst a. left. apply ends_with_rev. eauto.
    + right. intros Hends. apply ends_with_rev in Hends.
      destruct Hends as (r' & Hr'). rewrite Hrev in Hr'. injection Hr' as -> _.
      assert (point_eqb p p = true) by now apply point_eqb_true.
      congruence.
Qed.

Lemma racing_add_point_repeated (t : Racing.Track R) (p : point R) :
  (exists l0, Racing.centerline t = l0 ++ [p]) -> Racing.add_point t p = t.
Proof.
  intros Hends. apply ends_with_rev in Hends. destruct Hends as (r & Hr).
  unfold Racing.add_point. rewrite Hr.
  replace (point_eqb p p) with true by (symmetry; now apply point_eqb_true).
  reflexivity.
Qed.

Lemma racing_add_point_new (t : Racing.Track R) (p : point R) :
  ~ (exists l0, Racing.centerline t = l0 ++ [p]) ->
  Racing.add_point t p =
    Racing.mkTrack (Racing.centerline t ++ [p]) (Racing.inner_boundary t)
      (Racing.outer_boundary t) (Racing.width t) (Racing.finalized t)
      (Racing.track_polygon t) (Racing.track_mask t).
Proof.
  intros Hnew. unfold Racing.add_point.
  destruct (rev (Racing.centerline t)) as [|a r] eqn:Hrev; [reflexivity|].
  destruct (point_eqb p a) eqn:Hpa; [|reflexivity].
  apply point_eqb_true in Hpa. subst a.
  exfalso. apply Hnew. apply ends_with_rev. eauto.
Qed.

(** X1: [add_point] appends the point unless the centerline already ends
    with it, in which case it changes nothing; it touches no other field
    and does not look at [finalized]. *)
Theorem add_point_appends_unless_repeated (t : Racing.Track R) (p : point R) :
  ((exists l0, Racing.centerline t = l0 ++ [p]) -> Racing.add_point t p = t) /\
  (~ (exists l0, Racing.centerline t = l0 ++ [p]) ->
   Racing.centerline (Racing.add_point t p) = Racing.centerline t ++ [p]) /\
  Racing.inner_boundary (Racing.add_point t p) = Racing.inner_boundary t /\
  Racing.outer_boundary (Racing.add_point t p) = Racing.outer_boundary t /\
  Racing.width (Racing.add_point t p) = Racing.width t /\
  Racing.finalized (Racing.add_point t p) = Racing.finalized t /\
  Racing.track_mask (Racing.add_point t p) = Racing.track_mask t.
Proof.
  split; [apply racing_add_point_repeated|].
  split; [intros Hnew; now rewrite racing_add_point_new|].
  destruct (ends_with_decide (Racing.centerline t) p) as [Hends|Hnew].
  - rewrite racing_add_point_repeated by exact Hends. repeat split.
  - rewrite racing_add_point_new by exact Hnew. repeat split.
Qed.

Lemma adjacent_distinct_snoc (l : list (point R)) (p : point R) :
  adjacent_distinct l ->
  ~ (exists l0, l = l0 ++ [p]) ->
  adjacent_distinct (l ++ [p]).
Proof.
  induction l as [|a l IH]; intros Hl Hnew; [exact I|].
  destruct l as [|b l].
  - simpl. split; [|exact I]. intros ->. apply Hnew. exists []. reflexivity.
  - destruct Hl as [Hab Hl]. change ((a :: b :: l) ++ [p]) with (a :: ((b :: l) ++ [p])).
    change (adjacent_distinct (a :: (b :: l) ++ [p]))
      with (a <> b /\ adjacent_distinct ((b :: l) ++ [p])).
    split; [exact Hab|]. apply IH; [exact Hl|].
    intros (l0 & Hl0). apply Hnew. exists (a :: l0). simpl. now rewrite Hl0.
Qed.

Lemma racing_add_point_distinct (t : Racing.Track R) (p : point R) :
  adjacent_distinct (Racing.centerline t) ->
  adjacent_distinct (Racing.centerline (Racing.add_point t p)).
Proof.
  intros Hl.
  destruct (ends_with_decide (Racing.centerline t) p) as [Hends|Hnew].
  - now rewrite racing_add_point_repeated.
  - rewrite racing_add_point_new by exact Hnew. simpl.
    now apply adjacent_distinct_snoc.
Qed.

(** X2: whatever points are fed to [add_point], in whatever number, the
    centerline of a track that started empty never holds the same point
    twice in a row. *)
Theorem add_point_never_repeats (w : R) (pts : list (point R)) :
  adjacent_distinct (Racing.centerline (fold_left Racing.add_point pts (Racing.init w))).
Proof.
  assert (Hgen : forall t, adjacent_distinct (Racing.centerline t) ->
            adjacent_distinct (Racing.centerline (fold_left Racing.add_point pts t))).
  { induction pts as [|p pts IH]; intros t Ht; simpl; [exact Ht|].
    apply IH. now apply racing_add_point_distinct. }
  apply Hgen. exact I.
Qed.

End Drawing.

Section DrawingEvents.
Local Open Scope R_scope.
Variable spline_smooth : list (point R) -> R -> nat -> res (list (point R)).
Variable draw_polygon : list (point R) -> Mask.

Lemma extended_nil (t : Racing.Track R) : extended t [] = t.
Proof. destruct t. unfold extended. simpl. now rewrite app_nil_r. Qed.

Lemma extended_extended (t : Racing.Track R) (a b : list (point R)) :
  extended (extended t a) b = extended t (a ++ b).
Proof. unfold extended. simpl. now rewrite app_assoc. Qed.

Lemma racing_add_point_extended (t : Racing.Track R) (p : point R) :
  exists added,
    Racing.add_point t p = extended t added /\
    (adjacent_distinct (Racing.centerline t) ->
     adjacent_distinct (Racing.centerline t ++ added)).
Proof.
  destruct (ends_with_decide (Racing.centerline t) p) as [Hends|Hnew].
  - exists []. rewrite racing_add_point_repeated by exact Hends.
    rewrite extended_nil, app_nil_r. auto.
  - exists [p]. rewrite racing_add_point_new by exact Hnew.
    split; [reflexivity|]. intros Hl. now apply adjacent_distinct_snoc.
Qed.

Lemma racing_handle_event_drawing (t : Racing.Track R) (e : event R) :
  e <> KeyDown true ->
  exists added,
    Racing.handle_event spline_smooth draw_polygon t e = Ok (extended t added) /\
    (adjacent_distinct (Racing.centerline t) ->
     adjacent_distinct (Racing.centerline t ++ added)) /\
    (Racing.finalized t = true -> added = []).
Proof.
  intros Hkey. unfold Racing.handle_event.
  assert (Hsame : exists added,
             @Ok (Racing.Track R) t = Ok (extended t added) /\
             (adjacent_distinct (Racing.centerline t) ->
              adjacent_distinct (Racing.centerline t ++ added)) /\
             added = []).
  { exists []. rewrite extended_nil, app_nil_r. auto. }
  destruct (Racing.finalized t) eqn:Hfin; cbn [negb].
  - destruct Hsame as (added & Heq & Hd & Hnil). exists added. auto.
  - assert (Hkeep : exists added,
               @Ok (Racing.Track R) t = Ok (extended t added) /\
               (adjacent_distinct (Racing.centerline t) ->
                adjacent_distinct (Racing.centerline t ++ added)) /\
               (false = true -> added = [])).
    { destruct Hsame as (added & Heq & Hd & Hnil). exists added. auto. }
    assert (Hadd : forall pos, exists added,
               Ok (Racing.add_point t pos) = Ok (extended t added) /\
               (adjacent_distinct (Racing.centerline t) ->
                adjacent_distinct (Racing.centerline t ++ added)) /\
               (false = true -> added = [])).
    { intros pos. destruct (racing_add_point_extended t pos) as (added & Heq & Hd).
      exists added. rewrite Heq. split; [reflexivity|]. split; [exact Hd|].
      intros Habs. discriminate Habs. }
    destruct e as [|pos|[|] pos|[|]|]; auto. contradiction.
Qed.

(** X3: as long as no SPACE key is among the events, [handle_events]
    returns, fits no spline, and only ever appends to the centerline: the
    boundaries, the flag and the mask stay as they are, a centerline without
    repeated neighbours stays so, and a finalized track gets no point. *)
Theorem handle_events_only_appends (events : list (event R)) (t : Racing.Track R) :
  Forall (fun e => e <> KeyDown true) events ->
  exists running added,
    Racing.handle_events spline_smooth draw_polygon t events =
      Ok (running, extended t added) /\
    (adjacent_distinct (Racing.centerline t) ->
     adjacent_distinct (Racing.centerline t ++ added)) /\
    (Racing.finalized t = true -> added = []).
Proof.
  revert t. induction events as [|e rest IH]; intros t Hkeys.
  - exists true, []. simpl. rewrite extended_nil, app_nil_r. auto.
  - inversion Hkeys as [|? ? He Hrest]; subst.
    destruct (racing_handle_event_drawing t He) as (a1 & Hstep & Hd1 & Hf1).
    destruct (IH (extended t a1) Hrest) as (running & a2 & Hrun & Hd2 & Hf2).
    assert (Hquit : exists running added,
               @Ok (bool * Racing.Track R) (false, t) = Ok (running, extended t added) /\
               (adjacent_distinct (Racing.centerline t) ->
                adjacent_distinct (Racing.centerline t ++ added)) /\
               (Racing.finalized t = true -> added = [])).
    { exists false, []. rewrite extended_nil, app_nil_r. auto. }
    assert (Hgo : exists running added,
               bind (Racing.handle_event spline_smooth draw_polygon t e)
                 (fun t' => Racing.handle_events spline_smooth draw_polygon t' rest) =
                 Ok (running, extended t added) /\
               (adjacent_distinct (Racing.centerline t) ->
                adjacent_distinct (Racing.centerline t ++ added)) /\
               (Racing.finalized t = true -> added = [])).
    { exists running, (a1 ++ a2). rewrite Hstep. cbn [bind]. rewrite Hrun.
      rewrite extended_extended. split; [reflexivity|]. split.
      - intros Hl. rewrite app_assoc. apply Hd2. simpl. apply Hd1. exact Hl.
      - intros Hfin. rewrite (Hf1 Hfin). simpl. apply Hf2. exact Hfin. }
    destruct e; simpl; auto.
Qed.

End DrawingEvents.

Section QuitEvents.
Context {F : Type} `{Scalar F}.
Variable spline_smooth : list (point F) -> F -> nat -> res (list (point F)).
Variable draw_polygon : list (point F) -> Mask.

(** X4: [handle_events] handles nothing after the first QUIT event, and,
    when it returns, it answers [False] exactly when a QUIT event was in
    the queue. *)
Theorem handle_events_stops_at_quit :
  (forall (pre post : list (event F)) (t : Racing.Track F),
      Racing.handle_events spline_smooth draw_polygon t (pre ++ Quit :: post) =
      Racing.handle_events spline_smooth draw_polygon t (pre ++ [Quit])) /\
  (forall (events : list (event F)) (t t' : Racing.Track F) (running : bool),
      Racing.handle_events spline_smooth draw_polygon t events = Ok (running, t') ->
      (running = false <-> In Quit events)).
Proof.
  split.
  - induction pre as [|e pre IH]; intros post t; [reflexivity|].
    destruct e; simpl; try reflexivity;
      destruct (Racing.handle_event spline_smooth draw_polygon t _); simpl; auto.
  - induction events as [|e rest IH]; intros t t' running; simpl.
    + intros Hr. injection Hr as <- _. split; [discriminate|contradiction].
    + destruct e; simpl.
      * intros Hr. injection Hr as <- _. split; auto.
      * destruct (Racing.handle_event _ _ t _) as [t1|]; simpl; [|discriminate].
        intros Hr. rewrite (IH _ _ _ Hr). split; [auto|]. intros [Hq|Hq]; [discriminate|auto].
      * destruct (Racing.handle_event _ _ t _) as [t1|]; simpl; [|discriminate].
        intros Hr. rewrite (IH _ _ _ Hr). split; [auto|]. intros [Hq|Hq]; [discriminate|auto].
      * destruct (Racing.handle_event _ _ t _) as [t1|]; simpl; [|discriminate].
        intros Hr. rewrite (IH _ _ _ Hr). split; [auto|]. intros [Hq|Hq]; [discriminate|auto].
      * destruct (Racing.handle_event _ _ t _) as [t1|]; simpl; [|discriminate].
        intros Hr. rewrite (IH _ _ _ Hr). split; [auto|]. intros [Hq|Hq]; [discriminate|auto].
Qed.

(** X5: a [finalize] that returns on more than two points leaves the
    width as it was and [finalized] true, a centerline that is the fitted
    curve with its first point repeated at the end, two boundaries of the
    same length that each end with their first point, the polygon [outer +
    inner[::-1]] and the mask drawn from that polygon. *)
Theorem finalize_closes_curves (t t' : Racing.Track F) :
  (2 < length (Racing.centerline t))%nat ->
  Racing.finalize spline_smooth draw_polygon t = Ok t' ->
  Racing.finalized t' = true /\
  Racing.width t' = Racing.width t /\
  (exists p s,
      spline_smooth (Racing.centerline t) two 200 = Ok (p :: s) /\
      Racing.centerline t' = (p :: s) ++ [p]) /\
  (exists a inner, Racing.inner_boundary t' = (a :: inner) ++ [a]) /\
  (exists b outer, Racing.outer_boundary t' = (b :: outer) ++ [b]) /\
  length (Racing.inner_boundary t') = length (Racing.outer_boundary t') /\
  Racing.track_polygon t' =
    Some (Racing.outer_boundary t' ++ rev (Racing.inner_boundary t')) /\
  Racing.track_mask t' =
    Some (draw_polygon (Racing.outer_boundary t' ++ rev (Racing.inner_boundary t'))).
Proof.
  intros Hlen. unfold Racing.finalize, Racing.smooth_centerline.
  apply Nat.ltb_lt in Hlen. rewrite Hlen.
  destruct (spline_smooth _ two 200) as [[|p s]|] eqn:Hs; cbn [bind close_curve];
    try discriminate.
  unfold Racing.calculate_boundaries. rewrite offset_loop_unfold. cbn [bind fst snd].
  destruct (live_segments ((p :: s) ++ [p])) as [|i rest]; cbn [map bind close_curve];
    [discriminate|].
  cbn [fst snd]. intros Ht. injection Ht as <-.
  cbn [Racing.finalized Racing.width Racing.centerline Racing.inner_boundary
       Racing.outer_boundary Racing.track_polygon Racing.track_mask].
  repeat split; eauto.
  - eexists _, _. reflexivity.
  - eexists _, _. reflexivity.
  - cbn [length]. rewrite !length_app. cbn [length]. rewrite !length_map. reflexivity.
Qed.

End QuitEvents.

Section DrawingRuns.
Import Sample.
Local Open Scope R_scope.

Lemma add_point_appends_unless_repeated_witness :
  Racing.add_point drawing (0, 500) = drawing /\
  Racing.centerline (Racing.add_point drawing (5, 5)) =
    [(0, 499); (1, 499); (1, 500); (0, 500); (5, 5)].
Proof.
  split.
  - apply (proj1 (add_point_appends_unless_repeated drawing (0, 500))).
    exists [(0, 499); (1, 499); (1, 500)]. reflexivity.
  - apply (proj1 (proj2 (add_point_appends_unless_repeated drawing (5, 5)))).
    intros Hends. apply ends_with_rev in Hends. destruct Hends as (r & Hr).
    simpl in Hr. injection Hr as Hx _. lra.
Defined.

Lemma handle_events_only_appends_witness :
  Forall (fun e : event R => e <> KeyDown true)
    [MouseButtonDown (5, 5); MouseMotion false (6, 6); OtherEvent] /\
  exists running added,
    Racing.handle_events resample_line draw_band drawing
      [MouseButtonDown (5, 5); MouseMotion false (6, 6); OtherEvent] =
      Ok (running, extended drawing added) /\
    (adjacent_distinct (Racing.centerline drawing) ->
     adjacent_distinct (Racing.centerline drawing ++ added)) /\
    (Racing.finalized drawing = true -> added = []).
Proof.
  assert (Hkeys : Forall (fun e : event R => e <> KeyDown true)
            [MouseButtonDown (5, 5); MouseMotion false (6, 6); OtherEvent]).
  { repeat constructor; discriminate. }
  split; [exact Hkeys|].
  exact (@handle_events_only_appends resample_line draw_band _ drawing Hkeys).
Defined.

Lemma handle_events_stops_at_quit_witness :
  Racing.handle_events resample_line draw_band drawing
    [MouseMotion false (1, 1); Quit; KeyDown true] = Ok (false, drawing) /\
  (false = false <-> In Quit [MouseMotion false (1, 1); Quit; KeyDown true]).
Proof.
  assert (Hrun : Racing.handle_events resample_line draw_band drawing
            [MouseMotion false (1, 1); Quit; KeyDown true] = Ok (false, drawing)).
  { reflexivity. }
  split; [exact Hrun|].
  exact (proj2 (@handle_events_stops_at_quit R _ resample_line draw_band)
           _ drawing drawing false Hrun).
Defined.

Lemma finalize_closes_curves_witness :
  (2 < length (Racing.centerline drawing))%nat /\
  Racing.finalized finalized_track = true /\
  Racing.width finalized_track = 80 /\
  (exists a inner, Racing.inner_boundary finalized_track = (a :: inner) ++ [a]) /\
  (exists b outer, Racing.outer_boundary finalized_track = (b :: outer) ++ [b]).
Proof.
  assert (Hlen : (2 < length (Racing.centerline drawing))%nat) by (simpl; lia).
  split; [exact Hlen|].
  destruct (@finalize_closes_curves R _ resample_line draw_band drawing finalized_track
              Hlen (proj1 finalized_track_run))
    as (Hfin & Hw & _ & Hin & Hout & _).
  auto.
Defined.

End DrawingRuns.

(** ** The repair loop of the boundary test *)

Section RepairTotal.
Context {F : Type} `{Scalar F}.

Lemma repair_step_far (w : F) (inner outer : list (point F)) acc (i : nat) :
  ltb (distance (nth i inner origin) (nth i outer origin)) w = false ->
  repair_step w inner outer acc i =
    Ok (fst acc ++ [nth i inner origin], snd acc ++ [nth i outer origin]).
Proof. intros Hfar. unfold repair_step. unfold distance in Hfar. now rewrite Hfar. Qed.

Lemma repair_run_far (w : F) (inner outer : list (point F)) (idxs : list nat) :
  forall acc r,
    run_loop (repair_step w inner outer) acc idxs = Ok r ->
    exists ps qs,
      fst r = fst acc ++ ps /\ snd r = snd acc ++ qs /\
      length ps = length idxs /\ length qs = length idxs /\
      forall j, (j < length idxs)%nat ->
        ltb (distance (nth (nth j idxs O) inner origin)
                      (nth (nth j idxs O) outer origin)) w = false ->
        nth j ps origin = nth (nth j idxs O) inner origin /\
        nth j qs origin = nth (nth j idxs O) outer origin.
Proof.
  induction idxs as [|i rest IH]; intros acc r; cbn [run_loop].
  - intros Hr. injection Hr as <-. exists [], []. rewrite !app_nil_r.
    repeat split; cbn [length] in *; lia.
  - destruct (repair_step_finite w inner outer acc i) as (p & q & Hstep).
    rewrite Hstep. cbn [bind]. intros Hr.
    destruct (IH _ _ Hr) as (ps & qs & Hps & Hqs & Hlp & Hlq & Hfar).
    cbn [fst snd] in Hps, Hqs. rewrite <- app_assoc in Hps, Hqs.
    exists (p :: ps), (q :: qs).
    split; [exact Hps|]. split; [exact Hqs|].
    split; [cbn [length]; now rewrite Hlp|]. split; [cbn [length]; now rewrite Hlq|].
    intros [|j] Hj Hj_far; cbn [nth] in *.
    + rewrite (repair_step_far w inner outer acc i Hj_far) in Hstep.
      injection Hstep as Hp Hq.
      apply app_inv_head in Hp, Hq. injection Hp as <-. injection Hq as <-. now split.
    + apply Hfar; [cbn [length] in Hj; lia | exact Hj_far].
Qed.

(** X7: the repair loop changes only the pairs it measures closer than
    the width.  Whatever the arithmetic, a pair for which
    [distance < width] is false is returned as it was, at its own index,
    whatever was done to the other pairs; when that holds of every pair
    the loop returns the two lists it was given. *)
Theorem repair_loop_changes_only_close_pairs (w : F)
    (inner outer adjusted_inner adjusted_outer : list (point F)) :
  length outer = length inner ->
  repair_loop w inner outer = Ok (adjusted_inner, adjusted_outer) ->
  (forall k, (k < length inner)%nat ->
     ltb (distance (nth k inner origin) (nth k outer origin)) w = false ->
     nth k adjusted_inner origin = nth k inner origin /\
     nth k adjusted_outer origin = nth k outer origin) /\
  ((forall k, (k < length inner)%nat ->
      ltb (distance (nth k inner origin) (nth k outer origin)) w = false) ->
   adjusted_inner = inner /\ adjusted_outer = outer).
Proof.
  intros Hlen Hrun. unfold repair_loop in Hrun.
  destruct (repair_run_far w inner outer _ _ Hrun) as (ps & qs & Hps & Hqs & Hlp & Hlq & Hfar).
  cbn [fst snd app] in Hps, Hqs. subst ps qs. rewrite length_seq in Hlp, Hlq, Hfar.
  assert (Hkept : forall k, (k < length inner)%nat ->
            ltb (distance (nth k inner origin) (nth k outer origin)) w = false ->
            nth k adjusted_inner origin = nth k inner origin /\
            nth k adjusted_outer origin = nth k outer origin).
  { intros k Hk Hk_far. specialize (Hfar k Hk).
    rewrite seq_nth in Hfar by exact Hk. cbn [Nat.add] in Hfar. now apply Hfar. }
  split; [exact Hkept|].
  intros Hall. split.
  - apply (nth_ext _ _ origin origin); [exact Hlp|].
    intros k Hk. rewrite Hlp in Hk. now apply Hkept; [|apply Hall].
  - apply (nth_ext _ _ origin origin); [now rewrite Hlq, Hlen|].
    intros k Hk. rewrite Hlq in Hk. now apply Hkept; [|apply Hall].
Qed.

(** X9: given as many outer points as inner ones, the repair loop returns
    one pair for each pair it reads and never divides by zero: a pair of
    coincident points takes the scale 0.5 instead of a quotient. *)
Theorem repair_loop_never_divides_by_zero (w : F) (inner outer : list (point F)) :
  length outer = length inner ->
  exists adjusted_inner adjusted_outer,
    repair_loop w inner outer = Ok (adjusted_inner, adjusted_outer) /\
    length adjusted_inner = length inner /\
    length adjusted_outer = length outer.
Proof.
  intros Hlen. unfold repair_loop.
  destruct (repair_run w inner outer (seq 0 (length inner)) ([], []))
    as ([ai ao] & Hr & Hin & Hout).
  exists ai, ao. rewrite length_seq in Hin, Hout. cbn [fst snd length] in Hin, Hout.
  repeat split; [exact Hr | exact Hin | now rewrite Hlen].
Qed.

End RepairTotal.

Section GeometryRuns.
Import Sample.
Local Open Scope R_scope.

Lemma repair_loop_never_divides_by_zero_witness :
  exists adjusted_inner adjusted_outer,
    repair_loop 80 [((0, 0) : point R); (1, 1)] [(0, 0); (3, 4)] =
      Ok (adjusted_inner, adjusted_outer) /\
    length adjusted_inner = 2%nat /\
    length adjusted_outer = 2%nat.
Proof.
  exact (@repair_loop_never_divides_by_zero R _ 80 [(0, 0); (1, 1)] [(0, 0); (3, 4)]
           eq_refl).
Defined.

End GeometryRuns.

Section RepairRuns.
Import PrimFloat.
Local Open Scope float_scope.

(** In binary64, at width 80: the first pair, 5 apart, is repaired; the
    second, 100 apart, is returned as it was. *)
Lemma repair_loop_changes_only_close_pairs_witness :
  repair_loop 80 [((0, 0) : point float); (0, 0)] [(3, 4); (60, 80)] =
    Ok ([(-10.5, -14); (0, 0)], [(13.5, 18); (60, 80)]) /\
  distance ((0, 0) : point float) (60, 80) = 100 /\
  nth 1 [((-10.5, -14) : point float); (0, 0)] origin = (0, 0) /\
  nth 1 [((13.5, 18) : point float); (60, 80)] origin = (60, 80).
Proof.
  assert (Hrun : repair_loop 80 [((0, 0) : point float); (0, 0)] [(3, 4); (60, 80)] =
            Ok ([(-10.5, -14); (0, 0)], [(13.5, 18); (60, 80)]))
    by (vm_compute; reflexivity).
  split; [exact Hrun|]. split; [vm_compute; reflexivity|].
  exact (proj1 (@repair_loop_changes_only_close_pairs float _ 80
                  [(0, 0); (0, 0)] [(3, 4); (60, 80)] _ _ eq_refl Hrun)
           1%nat ltac:(simpl; lia) ltac:(vm_compute; reflexivity)).
Defined.

End RepairRuns.

(** ** The car: moving, sensing and ticking *)

Section CarMotion.
Import Car.
Local Open Scope R_scope.

Lemma update_driving (draw : nat) (c c' : Car) :
  collided c = false ->
  update draw c = Ok c' ->
  exists readings turn,
    sense c = Ok (set_sensors c readings) /\
    ai_model c draw readings = Ok turn /\
    c' = (if off_track (move (steer (set_sensors c readings) turn))
          then reset (set_pose (move (steer (set_sensors c readings) turn))
                        (x (move (steer (set_sensors c readings) turn)))
                        (y (move (steer (set_sensors c readings) turn)))
                        (angle (move (steer (set_sensors c readings) turn)))
                        (speed (move (steer (set_sensors c readings) turn))) true)
          else move (steer (set_sensors c readings) turn)).
Proof.
  intros Hdriving. unfold update. rewrite Hdriving. cbn [negb].
  destruct (sense c) as [c1|] eqn:Hsense; cbn [bind]; [|discriminate].
  pose proof (@sense_fields c c1 Hsense) as Hc1.
  destruct (ai_model c1 draw (sensors c1)) as [turn|] eqn:Hturn; cbn [bind];
    [|discriminate].
  intros Hc'. exists (sensors c1), turn. rewrite <- Hc1.
  split; [reflexivity|]. split.
  - rewrite Hc1 in Hturn. exact Hturn.
  - destruct (off_track (move (steer c1 turn))); now injection Hc' as <-.
Qed.

(** X11: a car that is marked collided is frozen, [update] does nothing to
    it; a car that is not comes out of every tick not marked, so the flag
    is never seen set between two ticks. *)
Theorem update_collided_flag (draw : nat) (c : Car) :
  (collided c = true -> update draw c = Ok c) /\
  (collided c = false -> forall c', update draw c = Ok c' -> collided c' = false).
Proof.
  split.
  - intros Hc. unfold update. now rewrite Hc.
  - intros Hc c' Hup.
    destruct (@update_driving draw c c' Hc Hup) as (readings & turn & _ & _ & ->).
    destruct (off_track _); [reflexivity | exact Hc].
Qed.

(** X12: a tick changes the pose and the readings only: the start
    position, the track and the policy of the car are those it had, and
    five readings stay five readings. *)
Theorem update_keeps_identity (draw : nat) (c c' : Car) :
  update draw c = Ok c' ->
  start_x c' = start_x c /\
  start_y c' = start_y c /\
  track c' = track c /\
  ai_model c' = ai_model c /\
  (length (sensors c) = 5%nat -> length (sensors c') = 5%nat).
Proof.
  intros Hup. destruct (collided c) eqn:Hc.
  - unfold update in Hup. rewrite Hc in Hup. injection Hup as <-. auto.
  - destruct (@update_driving draw c c' Hc Hup) as (readings & turn & Hsense & _ & ->).
    assert (Hfive : length (sensors c) = 5%nat -> length readings = 5%nat).
    { intros H5. destruct (sense_total c H5) as (r & Hr & Hlen).
      rewrite Hsense in Hr. injection Hr as <-. exact Hlen. }
    destruct (off_track _); repeat split; exact Hfive.
Qed.

(** X13: in a tick a driving car either is put back on its start pose or
    keeps its speed, has its heading changed by what the policy answered
    on the new readings, and stands one step of [move] along that new
    heading from where it was, on the track and on the canvas: the car
    steers before it moves. *)
Theorem update_resets_or_advances (draw : nat) (c c' : Car) :
  collided c = false ->
  update draw c = Ok c' ->
  (x c' = start_x c /\ y c' = start_y c /\ angle c' = 0 /\ speed c' = 2) \/
  (speed c' = speed c /\
   (exists turn,
      ai_model c draw (sensors c') = Ok turn /\ angle c' = angle c + turn) /\
   x c' = x c + cos (radians (angle c')) * speed c' /\
   y c' = y c - sin (radians (angle c')) * speed c' /\
   off_track c' = false).
Proof.
  intros Hc Hup.
  destruct (@update_driving draw c c' Hc Hup) as (readings & turn & _ & Hturn & ->).
  destruct (off_track (move (steer (set_sensors c readings) turn))) eqn:Hoff.
  - left. repeat split.
  - right.
    split; [reflexivity|].
    split; [exists turn; split; [exact Hturn | reflexivity]|].
    split; [reflexivity|]. split; [reflexivity | exact Hoff].
Qed.

End CarMotion.

Section CarReadings.
Import Car.
Local Open Scope R_scope.

Lemma set_item_In {A : Type} (l l' : list A) (i : nat) (v a : A) :
  set_item l i v = Ok l' -> In a l' -> a = v \/ In a l.
Proof.
  revert i l'. induction l as [|b l IH]; intros i l'; simpl; [discriminate|].
  destruct i as [|i].
  - intros Hl. injection Hl as <-. intros [<-|Ha]; [now left | right; now right].
  - destruct (set_item l i v) as [r|] eqn:Hr; simpl; [|discriminate].
    intros Hl. injection Hl as <-. intros [<-|Ha]; [right; now left|].
    destruct (IH _ _ Hr Ha) as [->|Hin]; [now left | right; now right].
Qed.

Lemma sense_ray_range (c : Car) (readings readings' : list Z) (entry : nat * Z) :
  readings_in_range readings ->
  sense_ray c readings entry = Ok readings' ->
  readings_in_range readings'.
Proof.
  intros Hrange. unfold sense_ray.
  destruct (first_outside c _ (range 1 200)) as [dist|] eqn:Hfirst.
  - intros Hset r Hr. destruct (@set_item_In Z _ _ _ _ _ Hset Hr) as [->|Hold].
    + apply first_outside_range in Hfirst. lia.
    + now apply Hrange.
  - intros Hsame. injection Hsame as <-. exact Hrange.
Qed.

Lemma sense_loop_range (c : Car) (entries : list (nat * Z)) :
  forall readings readings',
    readings_in_range readings ->
    sense_loop c readings entries = Ok readings' ->
    readings_in_range readings'.
Proof.
  induction entries as [|e rest IH]; intros readings readings' Hrange; simpl.
  - intros Hsame. injection Hsame as <-. exact Hrange.
  - destruct (sense_ray c readings e) as [r1|] eqn:Hray; simpl; [|discriminate].
    apply IH. exact (@sense_ray_range c _ _ _ Hrange Hray).
Qed.

Lemma sense_range (c c1 : Car) :
  readings_in_range (sensors c) -> sense c = Ok c1 -> readings_in_range (sensors c1).
Proof.
  intros Hrange. unfold sense.
  destruct (sense_loop c (sensors c) (enumerate sensor_angles)) as [r|] eqn:Hloop;
    simpl; [|discriminate].
  intros Hc1. injection Hc1 as <-. simpl.
  exact (@sense_loop_range c _ _ _ Hrange Hloop).
Qed.

(** X14: the readings of a car never leave the sensor range: a new car
    reads 200 on its five sensors, and a tick whose readings all lay
    between 1 and 200 leaves readings between 1 and 200 (what it writes is
    between 1 and 199). *)
Theorem readings_stay_in_range :
  (forall x0 y0 model t, readings_in_range (sensors (init x0 y0 model t))) /\
  (forall draw c c',
      readings_in_range (sensors c) ->
      update draw c = Ok c' ->
      readings_in_range (sensors c')).
Proof.
  split.
  - intros x0 y0 model t r Hr. simpl in Hr.
    repeat (destruct Hr as [<-|Hr]; [lia|]). contradiction.
  - intros draw c c' Hrange Hup. destruct (collided c) eqn:Hc.
    + unfold update in Hup. rewrite Hc in Hup. injection Hup as <-. exact Hrange.
    + destruct (@update_driving draw c c' Hc Hup) as (readings & turn & Hsense & _ & ->).
      pose proof (@sense_range c _ Hrange Hsense) as Hnew.
      destruct (off_track _); exact Hnew.
Qed.

(** X15: on a finalized track, a coordinate inside the canvas is answered
    with the mask's bit at the pixel that holds it: column [floor x], row
    [floor y]. *)
Theorem is_inside_track_reads_pixel (c : Car) (mask : Mask) (px py : R) :
  Racing.finalized (track c) = true ->
  Racing.track_mask (track c) = Some mask ->
  0 <= px < IZR WIDTH ->
  0 <= py < IZR HEIGHT ->
  exists col row,
    IZR col <= px < IZR col + 1 /\
    IZR row <= py < IZR row + 1 /\
    (0 <= col < WIDTH)%Z /\
    (0 <= row < HEIGHT)%Z /\
    is_inside_track c px py = PyBool (mask col row).
Proof.
  intros Hfin Hmask Hx Hy.
  exists (py_int px), (py_int py).
  pose proof (@py_int_bounds px WIDTH Hx) as Hcol.
  pose proof (@py_int_bounds py HEIGHT Hy) as Hrow.
  assert (Hfloor : forall r, 0 <= r -> IZR (py_int r) <= r < IZR (py_int r) + 1).
  { intros r Hr. unfold py_int. destruct (Rle_dec 0 r) as [_|Hn]; [|lra].
    destruct (base_Int_part r). lra. }
  split; [apply Hfloor; lra|]. split; [apply Hfloor; lra|].
  split; [exact Hcol|]. split; [exact Hrow|].
  rewrite (@is_inside_track_finalized c mask px py Hfin Hmask).
  unfold in_range.
  replace (0 <=? py_int px)%Z with true by (symmetry; apply Z.leb_le; lia).
  replace (py_int px <? WIDTH)%Z with true by (symmetry; apply Z.ltb_lt; lia).
  replace (0 <=? py_int py)%Z with true by (symmetry; apply Z.leb_le; lia).
  replace (py_int py <? HEIGHT)%Z with true by (symmetry; apply Z.ltb_lt; lia).
  reflexivity.
Qed.

Lemma first_outside_not_ready (c : Car) (ray_angle : R) :
  Racing.finalized (track c) = false ->
  first_outside c ray_angle (range 1 200) = Some 1%Z.
Proof.
  intros Hfin. change (range 1 200) with (1%Z :: range 2 200).
  unfold first_outside, inside_at.
  rewrite is_inside_track_not_ready by (left; exact Hfin). reflexivity.
Qed.

(** X16: on a track that is not finalized a driving car goes nowhere: a
    tick reads distance 1 on all five sensors, takes the car for off the
    track and puts it back on its start pose. *)
Theorem update_before_finalize_resets (draw : nat) (c : Car) :
  Racing.finalized (track c) = false ->
  collided c = false ->
  length (sensors c) = 5%nat ->
  (forall s, length s = 5%nat -> exists turn, ai_model c draw s = Ok turn) ->
  exists c',
    update draw c = Ok c' /\
    sensors c' = [1; 1; 1; 1; 1]%Z /\
    x c' = start_x c /\ y c' = start_y c /\ angle c' = 0 /\ speed c' = 2 /\
    collided c' = false.
Proof.
  intros Hfin Hc Hfive Hmodel.
  assert (Hsense : sense c = Ok (set_sensors c [1; 1; 1; 1; 1]%Z)).
  { unfold sense. destruct (sensors c) as [|s0 [|s1 [|s2 [|s3 [|s4 [|]]]]]];
      try discriminate.
    unfold sensor_angles, enumerate, sense_loop, sense_ray. cbn [length seq combine snd fst].
    rewrite !first_outside_not_ready by exact Hfin. reflexivity. }
  destruct (Hmodel [1; 1; 1; 1; 1]%Z eq_refl) as (turn & Hturn).
  unfold update. rewrite Hc, Hsense. cbn [negb bind].
  change (ai_model (set_sensors c [1; 1; 1; 1; 1]%Z)) with (ai_model c).
  change (sensors (set_sensors c [1; 1; 1; 1; 1]%Z)) with [1; 1; 1; 1; 1]%Z.
  rewrite Hturn. cbn [bind].
  assert (Hoff : off_track (move (steer (set_sensors c [1; 1; 1; 1; 1]%Z) turn)) = true).
  { unfold off_track. rewrite is_inside_track_not_ready by (left; exact Hfin).
    reflexivity. }
  rewrite Hoff. eexists. split; [reflexivity|]. repeat split.
Qed.

End CarReadings.

Section CarRuns.
Import Car Sample.
Local Open Scope R_scope.

Lemma early_car_tick : update 0 early_car = Ok early_car_ticked.
Proof. reflexivity. Qed.

Lemma update_collided_flag_witness :
  collided early_car = false /\ collided early_car_ticked = false.
Proof.
  split; [reflexivity|].
  exact (proj2 (update_collided_flag 0 early_car) eq_refl _ early_car_tick).
Defined.

Lemma update_keeps_identity_witness :
  start_x early_car_ticked = 0 /\
  start_y early_car_ticked = 499 /\
  track early_car_ticked = drawing /\
  length (sensors early_car_ticked) = 5%nat.
Proof.
  destruct (@update_keeps_identity 0 early_car early_car_ticked early_car_tick)
    as (Hx & Hy & Ht & _ & Hfive).
  split; [exact Hx|]. split; [exact Hy|]. split; [exact Ht|]. exact (Hfive eq_refl).
Defined.

Lemma update_resets_or_advances_witness :
  collided early_car = false /\
  ((x early_car_ticked = start_x early_car /\ y early_car_ticked = start_y early_car /\
    angle early_car_ticked = 0 /\ speed early_car_ticked = 2) \/
   (speed early_car_ticked = speed early_car /\
    (exists turn,
       ai_model early_car 0 (sensors early_car_ticked) = Ok turn /\
       angle early_car_ticked = angle early_car + turn) /\
    x early_car_ticked =
      x early_car + cos (radians (angle early_car_ticked)) * speed early_car_ticked /\
    y early_car_ticked =
      y early_car - sin (radians (angle early_car_ticked)) * speed early_car_ticked /\
    off_track early_car_ticked = false)).
Proof.
  split; [reflexivity|].
  exact (@update_resets_or_advances 0 early_car early_car_ticked eq_refl early_car_tick).
Defined.

Lemma readings_stay_in_range_witness :
  readings_in_range (sensors early_car) /\
  readings_in_range (sensors early_car_ticked).
Proof.
  destruct readings_stay_in_range as [Hinit Hstep].
  assert (Hearly : readings_in_range (sensors early_car)) by apply Hinit.
  split; [exact Hearly|].
  exact (Hstep 0%nat early_car early_car_ticked Hearly early_car_tick).
Defined.

Lemma is_inside_track_reads_pixel_witness :
  (0 <= 5 / 2 < IZR WIDTH) /\
  exists col row,
    IZR col <= 5 / 2 < IZR col + 1 /\
    IZR row <= 500 < IZR row + 1 /\
    (0 <= col < WIDTH)%Z /\
    (0 <= row < HEIGHT)%Z /\
    is_inside_track stale_car (5 / 2) 500 = PyBool (band_mask col row).
Proof.
  assert (Hx : 0 <= 5 / 2 < IZR WIDTH) by (unfold WIDTH; lra).
  split; [exact Hx|].
  destruct finalized_track_run as (_ & _ & Hfin & Hmask & _).
  apply (@is_inside_track_reads_pixel stale_car band_mask (5 / 2) 500 Hfin Hmask Hx).
  unfold HEIGHT. lra.
Defined.

Lemma is_inside_track_whole_pixel_outside_witness :
  is_inside_track stale_car (-1) 500 = PyBool false /\
  is_inside_track stale_car 1080 500 = PyBool false.
Proof.
  destruct finalized_track_run as (_ & _ & Hfin & Hmask & _).
  split.
  - apply (@is_inside_track_whole_pixel_outside stale_car band_mask (-1) 500 Hfin Hmask).
    left. lra.
  - apply (@is_inside_track_whole_pixel_outside stale_car band_mask 1080 500 Hfin Hmask).
    right. left. unfold WIDTH. lra.
Defined.

Lemma update_before_finalize_resets_witness :
  Racing.finalized (track early_car) = false /\
  exists c',
    update 0 early_car = Ok c' /\
    sensors c' = [1; 1; 1; 1; 1]%Z /\
    x c' = 0 /\ y c' = 499 /\ angle c' = 0 /\ speed c' = 2 /\
    collided c' = false.
Proof.
  split; [reflexivity|].
  apply (@update_before_finalize_resets 0 early_car eq_refl eq_refl eq_refl).
  intros s Hs. apply simple_model_total. exact Hs.
Defined.

End CarRuns.

(** ** The steering policies *)

Section Policies.
Local Open Scope Z_scope.

(** X17: on five readings the Simple policy answers one of -10, 10, 5, -5
    and 0; it answers 0 exactly when the centre, the leftmost and the
    rightmost reading are all 50 or more; and the two readings at 20 degrees
    never change its answer. *)
Theorem simple_logic_answers (draw : nat) (s0 s1 s2 s3 s4 : Z) :
  exists turn,
    simple_logic draw [s0; s1; s2; s3; s4] = Ok turn /\
    In turn [-10; 10; 5; -5; 0] /\
    (turn = 0 <-> 50 <= s2 /\ 50 <= s0 /\ 50 <= s4) /\
    forall a b, simple_logic draw [s0; a; s2; b; s4] = Ok turn.
Proof.
  unfold simple_logic. cbn [get_item nth_error bind].
  destruct (Z.ltb_spec s2 50) as [H2|H2].
  - destruct (random_choice_pair draw (-10) 10) as [Hc|Hc]; rewrite Hc;
      eexists; (split; [reflexivity|]); (split; [simpl; tauto|]);
      (split; [split; [discriminate | lia] | reflexivity]).
  - destruct (Z.ltb_spec s0 50) as [H0|H0].
    + eexists. split; [reflexivity|]. split; [simpl; tauto|].
      split; [split; [discriminate | lia] | reflexivity].
    + destruct (Z.ltb_spec s4 50) as [H4|H4].
      * eexists. split; [reflexivity|]. split; [simpl; tauto|].
        split; [split; [discriminate | lia] | reflexivity].
      * eexists. split; [reflexivity|]. split; [simpl; tauto|].
        split; [split; [lia | reflexivity] | reflexivity].
Qed.

(** X18: the policies index the list they are given: the Simple policy
    raises [IndexError] on fewer than three readings, the Advanced policy
    exactly when there are fewer than five. *)
Theorem policies_raise_on_short_readings (draw : nat) (s : list Z) :
  ((length s < 3)%nat -> simple_logic draw s = Err IndexError) /\
  (advanced_logic s = Err IndexError <-> (length s < 5)%nat).
Proof.
  split.
  - intros Hs. destruct s as [|s0 [|s1 [|s2 s]]]; try reflexivity. simpl in Hs. lia.
  - destruct s as [|s0 [|s1 [|s2 [|s3 [|s4 s]]]]];
      try (split; [intros _; simpl; lia | reflexivity]).
    split; [|simpl; lia].
    unfold advanced_logic. cbn [get_item nth_error bind].
    destruct (s2 <? 30); [discriminate|].
    destruct ((s0 <? 20) || (s4 <? 20)); discriminate.
Qed.

Local Open Scope R_scope.

(** X19: on five readings of the sensor range (0 to 200) the Advanced
    policy never turns by more than 20 degrees. *)
Theorem advanced_logic_bounded (s0 s1 s2 s3 s4 : Z) :
  (forall r, In r [s0; s1; s2; s3; s4] -> (0 <= r <= 200)%Z) ->
  exists turn,
    advanced_logic [s0; s1; s2; s3; s4] = Ok turn /\ Rabs turn <= 20.
Proof.
  intros Hrange.
  assert (H0 := Hrange s0 ltac:(simpl; tauto)).
  assert (H1 := Hrange s1 ltac:(simpl; tauto)).
  assert (H3 := Hrange s3 ltac:(simpl; tauto)).
  assert (H4 := Hrange s4 ltac:(simpl; tauto)).
  unfold advanced_logic. cbn [get_item nth_error bind].
  destruct (s2 <? 30)%Z.
  - destruct (s3 + s4 <? s0 + s1)%Z; eexists; (split; [reflexivity|]);
      apply Rabs_le; lra.
  - destruct ((s0 <? 20) || (s4 <? 20))%Z.
    + destruct (s0 <? s4)%Z; eexists; (split; [reflexivity|]); apply Rabs_le; lra.
    + eexists. split; [reflexivity|].
      assert (Hlo : IZR (-400) <= IZR (s3 + s4 - (s0 + s1))) by (apply IZR_le; lia).
      assert (Hhi : IZR (s3 + s4 - (s0 + s1)) <= IZR 400) by (apply IZR_le; lia).
      apply Rabs_le. lra.
Qed.

(** X20: the Advanced policy is odd under a left-right swap of the
    readings as long as no tie is met (the two scores differ and so do the
    two outer readings); on a tie of the scores with an obstacle ahead it
    turns by +20 for the readings and for their mirror image alike. *)
Theorem advanced_logic_mirror (s0 s1 s2 s3 s4 : Z) :
  ((s0 + s1 <> s3 + s4)%Z -> s0 <> s4 ->
   exists turn,
     advanced_logic [s0; s1; s2; s3; s4] = Ok turn /\
     advanced_logic [s4; s3; s2; s1; s0] = Ok (- turn)) /\
  ((s0 + s1 = s3 + s4)%Z -> (s2 < 30)%Z ->
   advanced_logic [s0; s1; s2; s3; s4] = Ok 20 /\
   advanced_logic [s4; s3; s2; s1; s0] = Ok 20).
Proof.
  unfold advanced_logic. cbn [get_item nth_error bind]. split.
  - intros Hscore Houter.
    destruct (Z.ltb_spec s2 30) as [H2|H2].
    + destruct (Z.ltb_spec (s3 + s4) (s0 + s1)) as [Hl|Hl];
        destruct (Z.ltb_spec (s1 + s0) (s4 + s3)) as [Hr|Hr]; try lia;
        eexists; (split; [reflexivity|]); f_equal; lra.
    + rewrite (orb_comm (s4 <? 20)%Z).
      destruct ((s0 <? 20) || (s4 <? 20))%Z.
      * destruct (Z.ltb_spec s0 s4) as [Hl|Hl];
          destruct (Z.ltb_spec s4 s0) as [Hr|Hr]; try lia;
          eexists; (split; [reflexivity|]); f_equal; lra.
      * eexists. split; [reflexivity|]. f_equal.
        replace (s1 + s0 - (s4 + s3))%Z with (- (s3 + s4 - (s0 + s1)))%Z by lia.
        rewrite opp_IZR. lra.
  - intros Htie H2.
    apply Z.ltb_lt in H2. rewrite H2.
    replace (s3 + s4 <? s0 + s1)%Z with false by (symmetry; apply Z.ltb_ge; lia).
    replace (s1 + s0 <? s4 + s3)%Z with false by (symmetry; apply Z.ltb_ge; lia).
    split; reflexivity.
Qed.

(** X21: with nothing close (centre reading 30 or more, outer readings 20
    or more) the Advanced policy steers in proportion to the difference of
    the two scores: toward the side with the larger score, and straight on
    exactly when the scores are equal. *)
Theorem advanced_logic_clear_road (s0 s1 s2 s3 s4 : Z) :
  (30 <= s2)%Z -> (20 <= s0)%Z -> (20 <= s4)%Z ->
  exists turn,
    advanced_logic [s0; s1; s2; s3; s4] = Ok turn /\
    turn = IZR ((s3 + s4) - (s0 + s1)) * (2 / 100) /\
    (turn = 0 <-> (s0 + s1 = s3 + s4)%Z) /\
    (0 < turn <-> (s0 + s1 < s3 + s4)%Z).
Proof.
  intros H2 H0 H4. unfold advanced_logic. cbn [get_item nth_error bind].
  replace (s2 <? 30)%Z with false by (symmetry; apply Z.ltb_ge; lia).
  replace (s0 <? 20)%Z with false by (symmetry; apply Z.ltb_ge; lia).
  replace (s4 <? 20)%Z with false by (symmetry; apply Z.ltb_ge; lia).
  cbn [orb]. eexists. split; [reflexivity|]. split; [reflexivity|].
  set (d := (s3 + s4 - (s0 + s1))%Z). split; split.
  - intros Hz. assert (Hd : IZR d = 0) by lra. apply eq_IZR_R0 in Hd. lia.
  - intros Heq. replace d with 0%Z by lia. lra.
  - intros Hpos. assert (Hd : 0 < IZR d) by lra. apply lt_0_IZR in Hd. lia.
  - intros Hlt. assert (Hd : 0 < IZR d) by (apply IZR_lt; lia). lra.
Qed.

End Policies.

Section PolicyRuns.
Local Open Scope R_scope.

Lemma policies_raise_on_short_readings_witness :
  simple_logic 0 [10; 10]%Z = Err IndexError /\
  advanced_logic [100; 100; 100; 100]%Z = Err IndexError.
Proof.
  split.
  - apply (proj1 (policies_raise_on_short_readings 0 [10; 10]%Z)). simpl. lia.
  - apply (proj2 (policies_raise_on_short_readings 0 [100; 100; 100; 100]%Z)). simpl. lia.
Defined.

Lemma advanced_logic_bounded_witness :
  exists turn,
    advanced_logic [200; 200; 100; 0; 20]%Z = Ok turn /\ Rabs turn <= 20.
Proof.
  apply advanced_logic_bounded.
  intros r Hr. simpl in Hr.
  repeat (destruct Hr as [<-|Hr]; [lia|]). contradiction.
Defined.

Lemma advanced_logic_mirror_witness :
  (exists turn,
      advanced_logic [10; 100; 100; 100; 100]%Z = Ok turn /\
      advanced_logic [100; 100; 100; 100; 10]%Z = Ok (- turn)) /\
  advanced_logic [100; 50; 10; 50; 100]%Z = Ok 20.
Proof.
  split.
  - apply (proj1 (advanced_logic_mirror 10 100 100 100 100)); lia.
  - apply (proj2 (advanced_logic_mirror 100 50 10 50 100)); lia.
Defined.

Lemma advanced_logic_clear_road_witness :
  exists turn,
    advanced_logic [100; 100; 100; 100; 100]%Z = Ok turn /\
    turn = IZR ((100 + 100) - (100 + 100)) * (2 / 100) /\
    (turn = 0 <-> (100 + 100 = 100 + 100)%Z) /\
    (0 < turn <-> (100 + 100 < 100 + 100)%Z).
Proof.
  apply advanced_logic_clear_road; lia.
Defined.

End PolicyRuns.

(** ** The main loop *)

Section MainLoop.
Import Car.
Local Open Scope R_scope.
Variable spline_smooth : list (point R) -> R -> nat -> res (list (point R)).
Variable draw_polygon : list (point R) -> Mask.

Lemma racing_handle_events_frozen (t : Racing.Track R) (events : list (event R)) :
  Racing.finalized t = true ->
  exists running,
    Racing.handle_events spline_smooth draw_polygon t events = Ok (running, t).
Proof.
  intros Hfin. induction events as [|e rest IH]; simpl; [eauto|].
  destruct e; eauto;
    rewrite (@racing_handle_event_finalized R _ spline_smooth draw_polygon t _ Hfin);
    simpl; exact IH.
Qed.

Lemma with_track_same (c : Car) : Main.with_track c (track c) = c.
Proof. now destruct c. Qed.

Lemma update_ready (draw : nat) (t : Racing.Track R) (c c' : Car) :
  car_ready t c ->
  update draw c = Ok c' ->
  car_ready t c' /\ start_x c' = start_x c /\ start_y c' = start_y c.
Proof.
  intros (Ht & Hc & Hfive & Hrange) Hup. unfold car_ready.
  destruct (@update_driving draw c c' Hc Hup) as (readings & turn & Hsense & _ & ->).
  destruct (sense_total c Hfive) as (r & Hr & Hlen).
  rewrite Hsense in Hr. injection Hr as <-.
  pose proof (@sense_range c _ Hrange Hsense) as Hnew.
  cbn [sensors set_sensors] in Hnew.
  destruct (off_track _);
    cbn [track collided sensors start_x start_y reset move steer set_pose set_sensors];
    (split; [|split; reflexivity]); (split; [exact Ht|]);
    (split; [reflexivity || exact Hc|]); (split; [exact Hlen | exact Hnew]).
Qed.

Lemma update_cars_ready (draws : nat -> nat) (t : Racing.Track R) (l : list Car) :
  forall k l',
    (forall c, In c l -> car_ready t c) ->
    Main.update_cars draws t k l = Ok l' ->
    Forall2 (fun c c' => car_ready t c' /\ start_x c' = start_x c /\ start_y c' = start_y c)
      l l'.
Proof.
  induction l as [|c rest IH]; intros k l' Hready; simpl.
  - intros Hl. injection Hl as <-. constructor.
  - assert (Hc : car_ready t c) by (apply Hready; now left).
    assert (Hsame : Main.with_track c t = c).
    { destruct Hc as (Ht & _). rewrite <- Ht. apply with_track_same. }
    rewrite Hsame.
    destruct (update (draws k) c) as [c'|] eqn:Hup; simpl; [|discriminate].
    destruct (Main.update_cars draws t (S k) rest) as [rest'|] eqn:Hrest; simpl;
      [|discriminate].
    intros Hl. injection Hl as <-. constructor.
    + exact (@update_ready (draws k) t c c' Hc Hup).
    + apply (IH (S k)); [|exact Hrest]. intros c0 Hc0. apply Hready. now right.
Qed.

Lemma init_ready (x0 y0 : R) (model : nat -> list Z -> res R) (t : Racing.Track R) :
  car_ready t (init x0 y0 model t).
Proof.
  unfold car_ready. split; [reflexivity|]. split; [reflexivity|]. split; [reflexivity|].
  intros r Hr. simpl in Hr. repeat (destruct Hr as [<-|Hr]; [lia|]). contradiction.
Qed.

Lemma Forall2_right {A B : Type} (P : A -> B -> Prop) (l : list A) (l' : list B) :
  Forall2 P l l' -> forall b, In b l' -> exists a, In a l /\ P a b.
Proof.
  induction 1 as [|a b l l' Hab _ IH]; intros b0 Hb0; [contradiction|].
  destruct Hb0 as [<-|Hb0].
  - exists a. split; [now left | exact Hab].
  - destruct (IH b0 Hb0) as (a0 & Ha0 & HP). exists a0. split; [now right | exact HP].
Qed.

Lemma frame_invariant (events : list (event R)) (draws : nat -> nat)
    (s s' : Main.State) (running : bool) :
  main_invariant s ->
  Main.frame spline_smooth draw_polygon events draws s = Ok (running, s') ->
  main_invariant s'.
Proof.
  intros [Hshape Hready]. unfold Main.frame.
  destruct (Racing.handle_events spline_smooth draw_polygon (Main.track s) events)
    as [[r t]|] eqn:Hev; cbn [bind fst snd]; [|discriminate].
  destruct Hshape as [[Hfin Hcars]|[Hfin Hcars]].
  - rewrite Hcars. rewrite andb_true_r.
    destruct (Racing.finalized t) eqn:Hfin'.
    + unfold Main.spawn.
      destruct (get_item (Racing.centerline t) 0) as [p|]; cbn [bind]; [|discriminate].
      match goal with |- context [Main.update_cars draws t O ?l] =>
        destruct (Main.update_cars draws t O l) as [l'|] eqn:Hup; cbn [bind];
          [|discriminate];
        pose proof (@update_cars_ready draws t l O l') as Hall
      end.
      intros Hs. injection Hs as _ <-. unfold main_invariant. cbn [Main.track Main.cars].
      assert (Hf2 := Hall ltac:(intros c [<-|[<-|[<-|[]]]]; apply init_ready) Hup).
      split.
      * right. split; [exact Hfin'|]. apply Forall2_length in Hf2. now rewrite <- Hf2.
      * intros c' Hc'. destruct (Forall2_right Hf2 _ Hc') as (c0 & _ & Hc0 & _).
        exact Hc0.
    + cbn [bind Main.update_cars]. intros Hs. injection Hs as _ <-.
      unfold main_invariant. cbn [Main.track Main.cars].
      split; [left; auto | intros c []].
  - destruct (racing_handle_events_frozen (Main.track s) events Hfin) as (r0 & Hfrozen).
    rewrite Hfrozen in Hev. injection Hev as _ <-.
    destruct (Main.cars s) as [|c0 cs] eqn:Hl; [discriminate|].
    rewrite andb_false_r. cbn [bind].
    destruct (Main.update_cars draws (Main.track s) O (c0 :: cs)) as [l'|] eqn:Hup;
      cbn [bind]; [|discriminate].
    intros Hs. injection Hs as _ <-. unfold main_invariant. cbn [Main.track Main.cars].
    pose proof (@update_cars_ready draws (Main.track s) (c0 :: cs) O l' Hready Hup) as Hf2.
    split.
    + right. split; [exact Hfin|]. apply Forall2_length in Hf2. now rewrite <- Hf2.
    + intros c' Hc'. destruct (Forall2_right Hf2 _ Hc') as (c1 & _ & Hc1 & _).
      exact Hc1.
Qed.

(** X22: however many passes the main loop makes and whatever the events,
    between two passes there is no car while the track is being drawn and
    there are exactly three once it is finalized; every car refers to the
    track as it is (the track no longer changes under the cars), is not
    marked collided, and holds five readings between 1 and 200. *)
Theorem main_loop_invariant (frames : list (list (event R) * (nat -> nat)))
    (s : Main.State) :
  Main.run spline_smooth draw_polygon frames Main.initial = Ok s ->
  main_invariant s.
Proof.
  assert (Hgen : forall s0, main_invariant s0 ->
            Main.run spline_smooth draw_polygon frames s0 = Ok s -> main_invariant s).
  { induction frames as [|f rest IH]; intros s0 Hinv; simpl.
    - intros Hs. injection Hs as <-. exact Hinv.
    - destruct (Main.frame spline_smooth draw_polygon (fst f) (snd f) s0)
        as [[r s1]|] eqn:Hframe; cbn [bind fst snd]; [|discriminate].
      pose proof (@frame_invariant _ _ _ _ _ Hinv Hframe) as Hinv1.
      destruct r; [apply IH; exact Hinv1|].
      intros Hs. injection Hs as <-. exact Hinv1. }
  apply Hgen. split; [left; split; reflexivity | intros c []].
Qed.

(** X23: the cars appear in the pass that finalizes the track and not
    before: a pass that starts without cars on a track being drawn ends
    either with that track still not finalized and no car, or with a
    finalized track and three cars whose start positions are the first
    point of its centerline, that point plus (10, 10) and that point minus
    (10, 10). *)
Theorem frame_spawns_cars (events : list (event R)) (draws : nat -> nat)
    (s s' : Main.State) (running : bool) :
  Racing.finalized (Main.track s) = false ->
  Main.cars s = [] ->
  Main.frame spline_smooth draw_polygon events draws s = Ok (running, s') ->
  (Racing.finalized (Main.track s') = false /\ Main.cars s' = []) \/
  (Racing.finalized (Main.track s') = true /\
   exists p rest c1 c2 c3,
     Racing.centerline (Main.track s') = p :: rest /\
     Main.cars s' = [c1; c2; c3] /\
     (start_x c1 = fst p /\ start_y c1 = snd p) /\
     (start_x c2 = fst p + 10 /\ start_y c2 = snd p + 10) /\
     (start_x c3 = fst p - 10 /\ start_y c3 = snd p - 10)).
Proof.
  intros Hfin Hcars. unfold Main.frame.
  destruct (Racing.handle_events spline_smooth draw_polygon (Main.track s) events)
    as [[r t]|] eqn:Hev; cbn [bind fst snd]; [|discriminate].
  rewrite Hcars, andb_true_r.
  destruct (Racing.finalized t) eqn:Hfin'.
  - unfold Main.spawn, get_item.
    destruct (Racing.centerline t) as [|p rest] eqn:Hcl; cbn [nth_error bind];
      [discriminate|].
    match goal with |- context [Main.update_cars draws t O ?l] =>
      destruct (Main.update_cars draws t O l) as [l'|] eqn:Hup; cbn [bind];
        [|discriminate];
      pose proof (@update_cars_ready draws t l O l') as Hall
    end.
    intros Hs. injection Hs as _ <-. cbn [Main.track Main.cars]. right.
    split; [exact Hfin'|].
    assert (Hf2 := Hall ltac:(intros c [<-|[<-|[<-|[]]]]; apply init_ready) Hup).
    inversion Hf2 as [|a1 c1 l1 r1 (_ & Hx1 & Hy1) Hf3]; subst.
    inversion Hf3 as [|a2 c2 l2 r2 (_ & Hx2 & Hy2) Hf4]; subst.
    inversion Hf4 as [|a3 c3 l3 r3 (_ & Hx3 & Hy3) Hf5]; subst.
    inversion Hf5; subst.
    exists p, rest, c1, c2, c3. rewrite Hcl. repeat split; assumption.
  - cbn [bind Main.update_cars]. intros Hs. injection Hs as _ <-.
    cbn [Main.track Main.cars]. left. auto.
Qed.

End MainLoop.

Section MainRuns.
Import Car Sample.
Local Open Scope R_scope.

Lemma update_cars_total (draws : nat -> nat) (t : Racing.Track R) (l : list Car) :
  (forall c, In c l ->
     car_ready t c /\
     forall draw s, length s = 5%nat -> exists turn, ai_model c draw s = Ok turn) ->
  forall k, exists l', Main.update_cars draws t k l = Ok l'.
Proof.
  induction l as [|c rest IH]; intros Hall k; simpl; [eauto|].
  destruct (Hall c ltac:(now left)) as ((Ht & Hc & Hfive & _) & Hmodel).
  rewrite <- Ht, with_track_same.
  destruct (@update_total (draws k) c Hfive (Hmodel (draws k))) as (c' & Hc').
  rewrite Hc'. cbn [bind]. rewrite Ht.
  destruct (IH ltac:(intros c0 Hc0; apply Hall; now right) (S k)) as (rest' & Hrest).
  rewrite Hrest. cbn [bind]. eauto.
Qed.

Lemma spawn_ready (t : Racing.Track R) (p : point R) (rest : list (point R)) :
  Racing.centerline t = p :: rest ->
  exists l,
    Main.spawn t = Ok l /\
    forall c, In c l ->
      car_ready t c /\
      forall draw s, length s = 5%nat -> exists turn, ai_model c draw s = Ok turn.
Proof.
  intros Hcl. unfold Main.spawn. rewrite Hcl. cbn [get_item nth_error bind].
  eexists. split; [reflexivity|].
  intros c [<-|[<-|[<-|[]]]]; (split; [apply init_ready|]); intros draw s Hs.
  - now apply simple_model_total.
  - now apply advanced_model_total.
  - now apply advanced_model_total.
Qed.

Lemma main_loop_invariant_witness :
  Main.run resample_line draw_blank
    [([MouseButtonDown (5, 5)], fun _ => O); ([Quit], fun _ => O)] Main.initial =
    Ok click_and_quit /\
  main_invariant click_and_quit.
Proof.
  assert (Hrun : Main.run resample_line draw_blank
            [([MouseButtonDown (5, 5)], fun _ => O); ([Quit], fun _ => O)] Main.initial =
            Ok click_and_quit) by reflexivity.
  split; [exact Hrun|].
  exact (@main_loop_invariant resample_line draw_blank _ _ Hrun).
Defined.

Lemma blank_finalize :
  exists t,
    Racing.finalize resample_line draw_blank drawing = Ok t /\
    Racing.finalized t = true /\
    Racing.centerline t = closed_line.
Proof.
  assert (Hlive : live_segments closed_line = O :: seq 1 199).
  { exact (@line_live_segments (0, 499) 200 ltac:(lia)). }
  pose proof (racing_boundaries_live 80 closed_line Hlive) as Hio.
  assert (Hrun := @racing_finalize_steps R _ resample_line draw_blank drawing
            (line (0, 499) 200) closed_line _ ltac:(simpl; lia) eq_refl
            (@line_closed (0, 499) 200 ltac:(lia)) Hio).
  eexists. split; [exact Hrun|]. split; reflexivity.
Qed.

Lemma space_pass_run :
  Main.frame resample_line draw_blank [KeyDown true] (fun _ => O) drawn =
    Ok (fst space_pass, snd space_pass).
Proof.
  assert (Hframe : exists r,
            Main.frame resample_line draw_blank [KeyDown true] (fun _ => O) drawn = Ok r).
  { unfold Main.frame. cbn [Main.track drawn Racing.handle_events Racing.handle_event
      Racing.finalized drawing negb].
    destruct blank_finalize as (t & Hfin & Hflag & Hcl).
    rewrite Hfin. cbn [bind fst snd Main.cars]. rewrite Hflag. cbn [andb].
    destruct (@spawn_ready t _ _ Hcl) as (l & Hspawn & Hl).
    rewrite Hspawn. cbn [bind Main.cars drawn].
    destruct (@update_cars_total (fun _ => O) t l Hl O) as (l' & Hl').
    rewrite Hl'. cbn [bind]. eexists. reflexivity. }
  destruct Hframe as (r & Hr). unfold space_pass. rewrite Hr. cbn [unwrap].
  now destruct r.
Qed.

Lemma frame_spawns_cars_witness :
  Racing.finalized (Main.track drawn) = false /\
  Main.cars drawn = [] /\
  ((Racing.finalized (Main.track (snd space_pass)) = false /\
    Main.cars (snd space_pass) = []) \/
   (Racing.finalized (Main.track (snd space_pass)) = true /\
    exists p rest c1 c2 c3,
      Racing.centerline (Main.track (snd space_pass)) = p :: rest /\
      Main.cars (snd space_pass) = [c1; c2; c3] /\
      (start_x c1 = fst p /\ start_y c1 = snd p) /\
      (start_x c2 = fst p + 10 /\ start_y c2 = snd p + 10) /\
      (start_x c3 = fst p - 10 /\ start_y c3 = snd p - 10))).
Proof.
  split; [reflexivity|]. split; [reflexivity|].
  exact (@frame_spawns_cars resample_line draw_blank [KeyDown true] (fun _ => O)
           drawn (snd space_pass) (fst space_pass) eq_refl eq_refl space_pass_run).
Defined.

End MainRuns.
